(** * The stub repository of mountebank: selection, rotation, recording

    A shallow embedding of [src/models/stubRepository.js] and the properties
    of its predicate evaluation ([trueForAll], [matchesPredicate]), stub
    selection ([findFirstMatch]) and response resolution ([resolve]). *)

From Stdlib Require Import ZArith String Ascii List Bool Lia.
From stdpp Require Import base list strings.
Import ListNotations.

Local Open Scope string_scope.
Local Open Scope list_scope.

(** ** JavaScript values

    Predicates, requests, response descriptors and responses are parsed JSON.
    An object is the list of its own enumerable properties in [Object.keys]
    order; an object has no two properties of the same name.  Numbers are
    integers here: the repository never computes with them, it only asks for
    their type and their truth value. *)

#[warnings="-register-all"]
Inductive value : Type :=
| VUndefined
| VNull
| VBool (b : bool)
| VNum (n : Z)
| VStr (s : string)
| VArr (items : list value)
| VObj (props : list (string * value)).

(** [typeof v] *)
Definition typeof (v : value) : string :=
  match v with
  | VUndefined => "undefined"
  | VNull => "object"
  | VBool _ => "boolean"
  | VNum _ => "number"
  | VStr _ => "string"
  | VArr _ => "object"
  | VObj _ => "object"
  end.

(** [util.isArray(v)] *)
Definition isArray (v : value) : bool :=
  match v with VArr _ => true | _ => false end.

(** Conversion to boolean, as done by [if (v)], [v || d] and by
    [every(function (result) { return result; })]. *)
Definition truthy (v : value) : bool :=
  match v with
  | VUndefined | VNull => false
  | VBool b => b
  | VNum n => negb (Z.eqb n 0)
  | VStr s => negb (String.eqb s "")
  | VArr _ | VObj _ => true
  end.

(** [obj[key]] on the own properties of an object. *)
Fixpoint get (props : list (string * value)) (key : string) : value :=
  match props with
  | [] => VUndefined
  | (k, v) :: rest => if String.eqb k key then v else get rest key
  end.

(** [Object.keys(obj)] *)
Definition Object_keys (props : list (string * value)) : list string :=
  map fst props.

(** ** Exceptions *)

Inductive error : Type :=
| ValidationError (message : string) (source : value)
    (* errors.ValidationError(message, { source: ... }) *)
| TypeError (message : string)
    (* raised by the language itself *)
| Failure (reason : value).
    (* anything an operator or the resolver raises or rejects with *)

Inductive outcome (A : Type) : Type :=
| Return (a : A)
| Throw (e : error).
Arguments Return {A} a.
Arguments Throw {A} e.

Definition bind {A B} (m : outcome A) (k : A -> outcome B) : outcome B :=
  match m with
  | Return a => k a
  | Throw e => Throw e
  end.

Notation "'let!' x ':=' m 'in' k" := (bind m (fun x => k))
  (at level 10, x name, m at level 100, k at level 200).

(** [xs.map(f)] when [f] may throw: elements are visited first to last and
    the first exception ends the traversal. *)
Definition mapM {A B} (f : A -> outcome B) : list A -> outcome (list B) :=
  fix go (xs : list A) : outcome (list B) :=
    match xs with
    | [] => Return []
    | x :: rest =>
        let! y := f x in
        let! ys := go rest in
        Return (y :: ys)
    end.

(** [xs.filter(f)] when [f] may throw. *)
Definition filterM {A} (f : A -> outcome bool) : list A -> outcome (list A) :=
  fix go (xs : list A) : outcome (list A) :=
    match xs with
    | [] => Return []
    | x :: rest =>
        let! keep := f x in
        let! ys := go rest in
        Return (if (keep : bool) then x :: ys else ys)
    end.

(** ** Stubs, match records and the repository

    Stubs are objects shared by reference: the caller of [addStub] keeps the
    object it passes, the array [stubs] holds references in insertion order,
    and the callbacks that [resolve] registers close over the selected stub.
    The heap holds the stub objects; a location is an index into it. *)

Module Match.
Record t : Type := make
  { timestamp : string;     (* new Date().toJSON() *)
    request : value;
    response : value }.
End Match.

(** A stub carries an array [responses]; [predicates] and [matches] may be
    absent.  On a stub stored without [responses], [stub.responses.shift()]
    in [resolve] raises a TypeError; such stubs are not covered here. *)
Module Stub.
Record t : Type := make
  { predicates : option (list (string * value));   (* absent (falsy), or an object *)
    responses : list value;
    matches : option (list Match.t) }.             (* absent until the first match *)
End Stub.

Abbreviation loc := nat.

(** State of the promise returned by one call of [resolve]. *)
Inductive promise : Type :=
| Pending
| Fulfilled (response : value)
| Rejected (reason : error).

(** One invocation of [resolver.resolve(stubResolver, request, logger, stubs)],
    with what its [done] callbacks close over: the selected stub, the
    request and the deferred. *)
Record call : Type := Call
  { call_stub : loc;
    stubResolver : value;
    call_request : value;
    deferred : promise }.

(** What [logger.debug] receives from [findFirstMatch]. *)
Inductive log_line : Type :=
| NoPredicateMatch                                      (* 'no predicate match' *)
| UsingPredicateMatch (shown : list (string * value)).  (* 'using predicate match: ' + JSON.stringify(shown) *)

Record repository : Type := Repository
  { heap : list Stub.t;
    stubs : list loc;         (* var stubs = [] *)
    calls : list call;        (* resolver invocations, in the order they were made *)
    debug : list log_line }.

(** How the promise returned by the resolver is settled. *)
Inductive settlement : Type :=
| Resolved (response : value)
| Failed (reason : error).

(** What happens to a repository over time: a stub is created and added, a
    request is resolved, or the resolver settles the promise of a call. *)
Inductive event : Type :=
| AddStub (stub : Stub.t)
| Resolve (request : value)
| Done (id : nat) (result : settlement) (now : string).

Definition create : repository :=
  {| heap := []; stubs := []; calls := []; debug := [] |}.

(** An entry of the operator table [require('./predicates')]: called as
    [predicates[key](fieldName, predicate[key], request)]. *)
Definition operator : Type := string -> value -> value -> outcome value.

(** ** An operator table and inputs for examples *)

Module Examples.

(** Modelled from the spec: the operator table [./predicates] is not part of
    the sources at hand.  The spec describes a leaf matcher for equality that
    compares a named request field against a literal; the request is a
    mapping of field name to value. *)
Fixpoint value_eqb (a b : value) {struct a} : bool :=
  match a, b with
  | VUndefined, VUndefined => true
  | VNull, VNull => true
  | VBool x, VBool y => Bool.eqb x y
  | VNum x, VNum y => Z.eqb x y
  | VStr x, VStr y => String.eqb x y
  | VArr xs, VArr ys =>
      (fix all2 (xs ys : list value) {struct xs} : bool :=
         match xs, ys with
         | [], [] => true
         | x :: xs', y :: ys' => value_eqb x y && all2 xs' ys'
         | _, _ => false
         end) xs ys
  | VObj ps, VObj qs =>
      (fix all2 (ps qs : list (string * value)) {struct ps} : bool :=
         match ps, qs with
         | [], [] => true
         | (k, x) :: ps', (k', y) :: qs' =>
             String.eqb k k' && value_eqb x y && all2 ps' qs'
         | _, _ => false
         end) ps qs
  | _, _ => false
  end.

Definition field (request : value) (fieldName : string) : value :=
  match request with
  | VObj props => get props fieldName
  | _ => VUndefined
  end.

(** Modelled from the spec: the equality matcher of the absent operator
    table, as the spec words it. *)
Definition equals : operator :=
  fun fieldName expected request =>
    Return (VBool (value_eqb (field request fieldName) expected)).

(** Modelled from the spec: the operator table [./predicates] is absent; the
    spec describes an extension point for scripted predicates, which run
    logic supplied with the stub.  The scripts of the examples throw, and
    the exception leaves the operator. *)
Definition inject : operator :=
  fun _ script _ => Throw (Failure script).

Definition table (key : string) : option operator :=
  if String.eqb key "equals" then Some equals
  else if String.eqb key "inject" then Some inject
  else None.

(** Stubs and requests. *)
Definition always (responses : list value) : Stub.t :=
  {| Stub.predicates := None; Stub.responses := responses; Stub.matches := None |}.

Definition onlyIf (predicates : list (string * value)) (responses : list value)
    : Stub.t :=
  {| Stub.predicates := Some predicates; Stub.responses := responses;
     Stub.matches := None |}.

Definition xTest (v : string) : value :=
  VObj [("headers", VObj [("X-Test", VStr v)])].

(** [{ "headers": { "equals": { "X-Test": "a" } } }] *)
Definition headerIsA : list (string * value) :=
  [("headers", VObj [("equals", VObj [("X-Test", VStr "a")])])].

(** [{ "path": { "bogus": 1 } }]: an unrecognized operator with a number. *)
Definition bogusOperator : list (string * value) :=
  [("path", VObj [("bogus", VNum 1)])].

(** [{ "path": null }] *)
Definition nullNode : list (string * value) :=
  [("path", VNull)].

(** [{ "request": { "inject": "function (request) { throw 'boom'; }" } }] *)
Definition throwingScript : list (string * value) :=
  [("request", VObj [("inject", VStr "function (request) { throw 'boom'; }")])].

(** A repository to which the given stubs were added in order. *)
Definition repositoryOf (objects : list Stub.t) : repository :=
  {| heap := objects; stubs := seq 0 (length objects); calls := []; debug := [] |}.

(** Two stubs that match every request, followed by a malformed stub. *)
Definition malformedLast : repository :=
  repositoryOf [always [VStr "A"]; always [VStr "B"];
                onlyIf bogusOperator [VStr "C"]].

(** A stub that matches every request, a stub whose script throws, and a
    malformed stub. *)
Definition scriptBeforeMalformed : repository :=
  repositoryOf [always [VStr "A"]; onlyIf throwingScript [VStr "B"];
                onlyIf bogusOperator [VStr "C"]].

(** A stub that matches every request, a stub with a [null] node, and a
    malformed stub. *)
Definition nullBeforeMalformed : repository :=
  repositoryOf [always [VStr "A"]; onlyIf nullNode [VStr "B"];
                onlyIf bogusOperator [VStr "C"]].

(** A stub for one header value, then two stubs that match every request. *)
Definition headerThenTwo : repository :=
  repositoryOf [onlyIf headerIsA [VStr "A"];
                always [VStr "B"; VStr "C"; VStr "D"];
                always [VStr "E"]].

(** [headerThenTwo] once [resolve] has returned for a request that the
    first stub does not match. *)
Definition headerThenTwoResolved : repository :=
  {| heap := [onlyIf headerIsA [VStr "A"];
              always [VStr "C"; VStr "D"; VStr "B"];
              always [VStr "E"]];
     stubs := [0; 1; 2];
     calls := [Call 1 (VStr "B") (xTest "b") Pending];
     debug := [UsingPredicateMatch []] |}.

(** Four requests resolved one after the other, one of them failing. *)
Definition fourRequests : list (value * settlement * string) :=
  [(xTest "b", Resolved (VStr "first"), "t0");
   (xTest "c", Failed (Failure (VStr "unreachable")), "t1");
   (xTest "b", Resolved (VStr "third"), "t2");
   (xTest "d", Resolved (VStr "fourth"), "t3")].

(** Calls against two stubs, a stub added meanwhile, and resolvers that
    settle late and out of order. *)
Definition interleaved : list event :=
  [Resolve (xTest "b"); Resolve (xTest "c");
   Done 1 (Resolved (VStr "second")) "t0";
   Resolve (xTest "a");
   AddStub (always [VStr "F"]);
   Resolve (xTest "d");
   Done 3 (Failed (Failure (VStr "unreachable"))) "t1";
   Done 0 (Resolved (VStr "first")) "t2";
   Resolve (xTest "b")].

(** A stub for one header value only. *)
Definition headerOnly : repository :=
  repositoryOf [onlyIf headerIsA [VStr "A"]].

End Examples.

(** ** Induction on values and what an evaluation raises *)

(** Induction on a value, with the hypothesis for every element of an array
    and every property of an object. *)
Section ValueInduction.

Variable P : value -> Prop.
Hypothesis PUndefined : P VUndefined.
Hypothesis PNull : P VNull.
Hypothesis PBool : forall b, P (VBool b).
Hypothesis PNum : forall n, P (VNum n).
Hypothesis PStr : forall s, P (VStr s).
Hypothesis PArr : forall items, Forall P items -> P (VArr items).
Hypothesis PObj : forall props, Forall (fun kv => P (snd kv)) props -> P (VObj props).

Fixpoint value_nested_ind (v : value) : P v :=
  match v with
  | VUndefined => PUndefined
  | VNull => PNull
  | VBool b => PBool b
  | VNum n => PNum n
  | VStr s => PStr s
  | VArr items =>
      PArr items
        ((fix all (l : list value) : Forall P l :=
            match l with
            | [] => @List.Forall_nil _ P
            | x :: rest => @List.Forall_cons _ P x rest (value_nested_ind x) (all rest)
            end) items)
  | VObj props =>
      PObj props
        ((fix all (l : list (string * value)) : Forall (fun kv => P (snd kv)) l :=
            match l with
            | [] => @List.Forall_nil _ (fun kv => P (snd kv))
            | kv :: rest =>
                @List.Forall_cons _ (fun kv => P (snd kv)) kv rest
                  (value_nested_ind (snd kv)) (all rest)
            end) props)
  end.

End ValueInduction.

(** The exception of an evaluation, if it raises. *)
Definition raised {A} (o : outcome A) : option error :=
  match o with
  | Return _ => None
  | Throw e => Some e
  end.

(** A predicate that addresses [node] through a chain of nested keys:
    [{ k1: { k2: ... node } }]. *)
Definition nest (keys : list string) (node : value) : value :=
  fold_right (fun key inner => VObj [(key, inner)]) node keys.

(** The field name after the keys were appended to it, each after a dot. *)
Definition dotted (fieldName : string) (keys : list string) : string :=
  fold_left (fun name key => name +:+ "." +:+ key) keys fieldName.

(** ** Notions about repositories used in further statements *)

(** Every reference held by the repository, in the stub list or in the
    closure of a pending callback, is the location of a stub object. *)
Definition wellFormed (st : repository) : Prop :=
  Forall (fun stub => stub < length (heap st)) (stubs st) /\
  Forall (fun c => call_stub c < length (heap st)) (calls st).

(** The stubs given to [addStub] along a trace, in order. *)
Fixpoint addedStubs (trace : list event) : list Stub.t :=
  match trace with
  | [] => []
  | AddStub s :: rest => s :: addedStubs rest
  | _ :: rest => addedStubs rest
  end.

(** The match history of a stub: [stub.matches || []]. *)
Definition history (s : Stub.t) : list Match.t :=
  default [] (Stub.matches s).

Definition isFulfilled (p : promise) : bool :=
  match p with Fulfilled _ => true | _ => false end.

(** Number of calls that selected [stub] and whose promise is fulfilled. *)
Definition fulfilledAgainst (stub : loc) (st : repository) : nat :=
  length (List.filter
            (fun c => Nat.eqb (call_stub c) stub && isFulfilled (deferred c))
            (calls st)).

(** ** The command line: configuration file and pidfile

    The functions [shouldLoadConfigFile], [putConfig], [loadConfig],
    [processExists] and [stop] of the script [mb].  They act on the file
    system and on the processes of the machine, which are the world below,
    and call library functions, which are parameters. *)

Module Mb.

(** The options that these functions read.  [configfile] is a string or
    [undefined]. *)
Record options : Type := Options
  { port : value;
    configfile : option string;
    pidfile : string }.

Inductive signal : Type :=
| Probe       (* process.kill(pid, 0) *)
| SIGTERM.    (* process.kill(pid) *)

(** A path names a file when [files] has contents for it; a path without
    contents may name a directory, which exists and cannot be read as a
    file. *)
Record world : Type := World
  { files : string -> option string;      (* contents of the files that exist *)
    directories : string -> bool;         (* the directories that exist *)
    running : nat -> bool;                (* the processes that can be signalled *)
    delivered : list (nat * signal) }.    (* the signals sent, probes apart *)

(** Library functions: [ejs.render(contents, { filename: ... })], whose
    templates may include other files, [JSON.parse], [JSON.stringify], and
    the process id that [process.kill] reads from the contents of the
    pidfile ([None] when it refuses them as an invalid pid). *)
Record node : Type := Node
  { ejs_render : string -> string -> world -> outcome string;
    JSON_parse : string -> outcome value;
    JSON_stringify : value -> string;
    pid_of : string -> option nat }.

(** [fs.existsSync(path)]: true for a file and for a directory. *)
Definition fs_existsSync (path : string) (w : world) : bool :=
  match files w path with Some _ => true | None => directories w path end.

(** [fs.readFileSync(path, ...)]: raises on a directory and on a path that
    does not exist. *)
Definition fs_readFileSync (path : string) (w : world) : outcome string :=
  match files w path with
  | Some contents => Return contents
  | None =>
      if directories w path then Throw (Failure (VStr "EISDIR"))
      else Throw (Failure (VStr "ENOENT"))
  end.

(** [fs.unlinkSync(path)]: removes a file, after which nothing is at
    [path]; raises on a directory and on a path that does not exist. *)
Definition fs_unlinkSync (path : string) (w : world) : outcome world :=
  match files w path with
  | Some _ =>
      Return {| files := fun p => if String.eqb p path then None else files w p;
                directories := fun p => if String.eqb p path then false
                                        else directories w p;
                running := running w;
                delivered := delivered w |}
  | None =>
      if directories w path then Throw (Failure (VStr "EISDIR"))
      else Throw (Failure (VStr "ENOENT"))
  end.

(** [process.kill(pid, signal)]: raises when the pid is invalid or cannot
    be signalled; a probe sends nothing.  What the target does with a
    signal happens in the target, later. *)
Definition process_kill (lib : node) (pid : string) (sig : signal) (w : world)
    : outcome world :=
  match pid_of lib pid with
  | None => Throw (TypeError "invalid pid")
  | Some p =>
      if running w p then
        match sig with
        | Probe => Return w
        | SIGTERM =>
            Return {| files := files w; directories := directories w;
                      running := running w;
                      delivered := delivered w ++ [(p, SIGTERM)] |}
        end
      else Throw (Failure (VStr "ESRCH"))
  end.

(** [processExists(pid)] *)
Definition processExists (lib : node) (pid : string) (w : world) : bool :=
  match process_kill lib pid Probe w with
  | Return _ => true
  | Throw _ => false
  end.

(** [shouldLoadConfigFile(options)] *)
Definition shouldLoadConfigFile (o : options) : bool :=
  match configfile o with Some _ => true | None => false end.

(** The request that [putConfig] issues: the options of [http.request] and
    the body written to it. *)
Record httpRequest : Type := HttpRequest
  { method : string;
    path : string;
    request_port : value;
    hostname : string;
    headers : list (string * string);
    body : string }.

(** [putConfig(options, body)], up to the request issued. *)
Definition putConfig (o : options) (body : string) : httpRequest :=
  {| method := "PUT";
     path := "/imposters";
     request_port := port o;
     hostname := "localhost";
     headers := [("Content-Type", "application/json"); ("Connection", "close")];
     body := body |}.

(** [json.imposters]: reading a property of [null] or [undefined] raises;
    a value that is not an object has no such property. *)
Definition json_imposters (json : value) : outcome value :=
  match json with
  | VObj props => Return (get props "imposters")
  | VNull | VUndefined =>
      Throw (TypeError "Cannot read property 'imposters' of null")
  | _ => Return VUndefined
  end.

(** [loadConfig(options)]: [None] is [Q(true)], [Some r] the promise of
    [putConfig] for the request [r]. *)
Definition loadConfig (lib : node) (o : options) (w : world)
    : outcome (option httpRequest) :=
  match configfile o with
  | None => Return None
  | Some file =>
      let! configContents := fs_readFileSync file w in
      let! parsedContents := ejs_render lib configContents file w in
      let! json := JSON_parse lib parsedContents in
      let! imposters := json_imposters json in
      let imposters := if negb (truthy imposters) then VArr [json] else imposters in
      Return (Some (putConfig o
                      (JSON_stringify lib (VObj [("imposters", imposters)]))))
  end.

(** How a call of [stop] ends: with [Q(true)], with a deferred that the
    first [waitForClose] resolved, or with [waitForClose] scheduled again. *)
Inductive stopping : Type :=
| NothingToStop
| Closed
| Waiting.

(** One run of [waitForClose], [elapsedTime] after [stop] took the time:
    [true] resolves the deferred, [false] is [setTimeout(waitForClose, 100)]. *)
Definition waitForClose (o : options) (elapsedTime : Z) (w : world) : bool :=
  fs_existsSync (pidfile o) w || Z.ltb 1000 elapsedTime.

(** [stop()], up to its return; [elapsedTime] is the time that the first
    run of [waitForClose] measures. *)
Definition stop (lib : node) (o : options) (elapsedTime : Z) (w : world)
    : outcome (stopping * world) :=
  if negb (fs_existsSync (pidfile o) w) then Return (NothingToStop, w)
  else
    let! pid := fs_readFileSync (pidfile o) w in
    if negb (processExists lib pid w) then
      let! w := fs_unlinkSync (pidfile o) w in
      Return (NothingToStop, w)
    else
      let! w := process_kill lib pid SIGTERM w in
      Return (if waitForClose o elapsedTime w then Closed else Waiting, w).

(** The configuration file of [o] exists, renders and parses to [json]. *)
Definition parsesTo (lib : node) (o : options) (w : world) (json : value) : Prop :=
  exists file contents rendered,
    configfile o = Some file /\
    files w file = Some contents /\
    ejs_render lib contents file w = Return rendered /\
    JSON_parse lib rendered = Return json.

(** [loadConfig] issues the request whose body is [document], serialized. *)
Definition sends (lib : node) (o : options) (w : world) (document : value) : Prop :=
  loadConfig lib o w = Return (Some (putConfig o (JSON_stringify lib document))).

(** A library and a world for examples: templates render to themselves,
    two documents parse, a pidfile holds the pid of a running process and
    another one the pid of a process that is gone; [run] is a directory. *)
Definition doubleQuote : string := String (Ascii.ascii_of_nat 34) EmptyString.

(** The text of the document with the one property [port]. *)
Definition portDocument : string :=
  "{ " +:+ doubleQuote +:+ "port" +:+ doubleQuote +:+ ": 4545 }".

Definition exampleLibrary : node :=
  {| ejs_render := fun contents _ _ => Return contents;
     JSON_parse := fun text =>
       if String.eqb text portDocument
       then Return (VObj [("port", VNum 4545)])
       else if String.eqb text "null" then Return VNull
       else Throw (Failure (VStr "SyntaxError"));
     JSON_stringify := fun _ => "<json>";
     pid_of := fun contents =>
       if String.eqb contents "4242" then Some 4242
       else if String.eqb contents "17" then Some 17
       else None |}.

Definition exampleWorld : world :=
  {| files := fun p =>
       if String.eqb p "imposter.json" then Some portDocument
       else if String.eqb p "mb.pid" then Some "4242"
       else if String.eqb p "old.pid" then Some "17"
       else None;
     directories := fun p => String.eqb p "run";
     running := fun pid => Nat.eqb pid 4242;
     delivered := [] |}.

Definition exampleOptions : options :=
  {| port := VNum 2525; configfile := Some "imposter.json"; pidfile := "mb.pid" |}.

Definition staleOptions : options :=
  {| port := VNum 2525; configfile := None; pidfile := "old.pid" |}.

(** Options whose pidfile is the path of a directory. *)
Definition directoryOptions : options :=
  {| port := VNum 2525; configfile := None; pidfile := "run" |}.

End Mb.

(** ** Further inputs for examples *)

Module Inputs.

(** An operator table whose operators do not raise. *)
Definition equalsOnly (key : string) : option operator :=
  if String.eqb key "equals" then Some Examples.equals else None.

(** A repository with one stub, which matches every request and has no
    responses. *)
Definition noResponses : repository :=
  Examples.repositoryOf [Examples.always []].

(** [{ "headers": { "X-Test": { "equals": "a" } } }], the keys of the path
    around the operator. *)
Definition headerPath : list string := ["headers"; "X-Test"].

(** What calling a value that is not a function does. *)
Definition notCallable : operator :=
  fun _ _ _ => Throw (TypeError "predicates[key] is not a function").

(** An operator table that is a plain object: beside its own operators, the
    lookup finds the inherited [__proto__], whose value is truthy and is
    not a function. *)
Definition plainObject (key : string) : option operator :=
  if String.eqb key "__proto__" then Some notCallable else Examples.table key.

(** [{ "bogus": 1 }] and the error that reports it. *)
Definition bogusNode : value := VObj [("bogus", VNum 1)].

Definition noBogus : error := ValidationError "no predicate 'bogus'" bogusNode.

(** What the script of [throwingScript] raises. *)
Definition boom : error :=
  Failure (VStr "function (request) { throw 'boom'; }").

(** A request whose field is named by a dotted path. *)
Definition dottedRequest : value := VObj [("headers.X-Test", VStr "a")].

End Inputs.

(** ** Predicate evaluation *)

Section StubRepository.

(** The operator table. [predicates key = Some op] when [predicates[key]]
    is truthy, for an own property of the table and for an inherited one
    alike, and [op] is then what calling the value stored there does. *)
Variable predicates : string -> option operator.

(** [trueForAll(obj, predicate)]:
    [Object.keys(obj).map(predicate).every(function (result) { return result; })].
    The callback receives the key together with [obj[key]], which is what
    both callers of the source read inside their callbacks. *)
Definition trueForAll (obj : list (string * value))
    (predicate : string -> value -> outcome value) : outcome bool :=
  let! results := mapM (fun kv => predicate (fst kv) (snd kv)) obj in
  Return (forallb truthy results).

(** The callback that [matchesPredicate] hands to [trueForAll], with the
    recursive call abstracted as [recur]. *)
Definition evaluateKeyWith (recur : string -> value -> value -> outcome bool)
    (fieldName : string) (predicate : value) (request : value)
    (key : string) (arg : value) : outcome value :=
  match predicates key with
  | Some op => op fieldName arg request
  | None =>
      if String.eqb (typeof arg) "object" then
        let! b := recur (fieldName +:+ "." +:+ key) arg request in
        Return (VBool b)
      else
        Throw (ValidationError ("no predicate '" +:+ key +:+ "'") predicate)
  end.

(** [matchesPredicate(fieldName, predicate, request)].  A [null] predicate
    passes the [typeof] test, and [Object.keys(null)] inside [trueForAll]
    raises a TypeError. *)
Fixpoint matchesPredicate (fieldName : string) (predicate : value)
    (request : value) {struct predicate} : outcome bool :=
  if negb (String.eqb (typeof predicate) "object") || isArray predicate then
    Throw (ValidationError "predicate must be an object" predicate)
  else
    match predicate with
    | VObj props =>
        trueForAll props
          (evaluateKeyWith matchesPredicate fieldName predicate request)
    | _ => Throw (TypeError "Cannot convert undefined or null to object")
    end.

Definition evaluateKey : string -> value -> value -> string -> value -> outcome value :=
  evaluateKeyWith matchesPredicate.

(** ** Selection *)

(** The callback of [stubs.filter] in [findFirstMatch]: the top-level keys
    of [stub.predicates] are field names, each with a predicate node.  A
    reference to no object stands for [undefined], whose [predicates]
    cannot be read. *)
Definition stubMatches (objects : list Stub.t) (request : value) (stub : loc)
    : outcome bool :=
  match objects !! stub with
  | None => Throw (TypeError "Cannot read property 'predicates' of undefined")
  | Some s =>
      let predicates := default [] (Stub.predicates s) in
      trueForAll predicates (fun fieldName node =>
        let! b := matchesPredicate fieldName node request in
        Return (VBool b))
  end.

Definition logger_debug (line : log_line) (st : repository) : repository :=
  {| heap := heap st; stubs := stubs st; calls := calls st;
     debug := debug st ++ [line] |}.

(** [matches[0].predicates || {}] *)
Definition shownPredicates (st : repository) (stub : loc) : list (string * value) :=
  match heap st !! stub with
  | Some s => default [] (Stub.predicates s)
  | None => []
  end.

(** [findFirstMatch(request, logger)]; [None] is [undefined]. *)
Definition findFirstMatch (request : value) (st : repository)
    : outcome (option loc * repository) :=
  if Nat.eqb (length (stubs st)) 0 then Return (None, st)
  else
    let! matches := filterM (stubMatches (heap st) request) (stubs st) in
    match matches with
    | [] => Return (None, logger_debug NoPredicateMatch st)
    | first :: _ =>
        Return (Some first,
                logger_debug (UsingPredicateMatch (shownPredicates st first)) st)
    end.

(** [addStub(stub)] *)
Definition addStub (stub : loc) (st : repository) : repository :=
  {| heap := heap st; stubs := stubs st ++ [stub]; calls := calls st;
     debug := debug st |}.

(** ** Resolution *)

(** A new stub object. *)
Definition alloc (s : Stub.t) (st : repository) : loc * repository :=
  (length (heap st),
   {| heap := heap st ++ [s]; stubs := stubs st; calls := calls st;
      debug := debug st |}).

Definition store (stub : loc) (s : Stub.t) (st : repository) : repository :=
  {| heap := <[stub := s]> (heap st); stubs := stubs st; calls := calls st;
     debug := debug st |}.

(** [{ responses: [{ is: {} }] }] *)
Definition implicitStub : Stub.t :=
  {| Stub.predicates := None;
     Stub.responses := [VObj [("is", VObj [])]];
     Stub.matches := None |}.

(** [findFirstMatch(request, logger) || { responses: [{ is: {} }]}] *)
Definition selectStub (request : value) (st : repository)
    : outcome (loc * repository) :=
  let! found := findFirstMatch request st in
  match fst found with
  | Some stub => Return (stub, snd found)
  | None => Return (alloc implicitStub (snd found))
  end.

(** [stub.responses.shift()]: the head, or [undefined] on an empty array. *)
Definition responses_shift (stub : loc) (st : repository)
    : outcome (value * repository) :=
  match heap st !! stub with
  | None => Throw (TypeError "Cannot read property 'responses' of undefined")
  | Some s =>
      Return (hd VUndefined (Stub.responses s),
              store stub {| Stub.predicates := Stub.predicates s;
                            Stub.responses := tl (Stub.responses s);
                            Stub.matches := Stub.matches s |} st)
  end.

(** [stub.responses.push(stubResolver)] *)
Definition responses_push (stub : loc) (stubResolver : value) (st : repository)
    : outcome repository :=
  match heap st !! stub with
  | None => Throw (TypeError "Cannot read property 'responses' of undefined")
  | Some s =>
      Return (store stub {| Stub.predicates := Stub.predicates s;
                            Stub.responses := Stub.responses s ++ [stubResolver];
                            Stub.matches := Stub.matches s |} st)
  end.

(** [resolver.resolve(stubResolver, request, logger, stubs).done(...)]: the
    resolver is invoked and its promise is pending; the identifier of the
    invocation is its position in [calls].

    Modelled from the spec: the resolver is handed to [create] and is not
    part of the sources.  By its contract it returns a promise, which it
    settles later with a response or a failure of its choosing (an event
    [Done]), and it has read access to the stub list. *)
Definition resolver_resolve (stub : loc) (stubResolver request : value)
    (st : repository) : nat * repository :=
  (length (calls st),
   {| heap := heap st; stubs := stubs st;
      calls := calls st ++ [Call stub stubResolver request Pending];
      debug := debug st |}).

(** [resolve(request, logger)], up to [return deferred.promise]: the result
    is the identifier of the call, whose [deferred] is the returned promise.
    [Throw] is an exception raised by [resolve] itself. *)
Definition resolve (request : value) (st : repository)
    : outcome (nat * repository) :=
  let! selected := selectStub request st in
  let stub := fst selected in
  let! shifted := responses_shift stub (snd selected) in
  let stubResolver := fst shifted in
  let! st := responses_push stub stubResolver (snd shifted) in
  Return (resolver_resolve stub stubResolver request st).

Definition settle (id : nat) (p : promise) (st : repository) : repository :=
  match calls st !! id with
  | None => st
  | Some c =>
      {| heap := heap st; stubs := stubs st;
         calls := <[id := Call (call_stub c) (stubResolver c) (call_request c) p]> (calls st);
         debug := debug st |}
  end.

(** [stub.matches = stub.matches || []; stub.matches.push(match)] *)
Definition matches_push (stub : loc) (m : Match.t) (st : repository) : repository :=
  match heap st !! stub with
  | None => st
  | Some s =>
      store stub {| Stub.predicates := Stub.predicates s;
                    Stub.responses := Stub.responses s;
                    Stub.matches := Some (default [] (Stub.matches s) ++ [m]) |} st
  end.

(** The first callback of [done], run when the resolver fulfils its promise
    with [response] at time [now]. *)
Definition onResolved (c : call) (id : nat) (response : value) (now : string)
    (st : repository) : repository :=
  let m := {| Match.timestamp := now;
              Match.request := call_request c;
              Match.response := response |} in
  let st := matches_push (call_stub c) m st in
  settle id (Fulfilled response) st.          (* deferred.resolve(response) *)

(** The second callback of [done]: [deferred.reject]. *)
Definition onRejected (id : nat) (reason : error) (st : repository) : repository :=
  settle id (Rejected reason) st.

(** The resolver settles the promise of call [id]; a promise settles once. *)
Definition done (id : nat) (result : settlement) (now : string)
    (st : repository) : repository :=
  match calls st !! id with
  | None => st
  | Some c =>
      match deferred c with
      | Pending =>
          match result with
          | Resolved response => onResolved c id response now st
          | Failed reason => onRejected id reason st
          end
      | _ => st
      end
  end.

(** ** Runs

    What happens to a repository over time: stubs are added, requests are
    resolved, and the resolver settles pending calls in any order.  The body
    of [resolve] has no suspension point: selection, [shift], [Q.defer()],
    [push] and the invocation of the resolver are consecutive statements of
    one synchronous function, and the callbacks given to [done] run in a
    later turn of the event loop.  Concurrent resolutions therefore
    interleave as whole events. *)

(** One event; a [resolve] that raises leaves the repository as it was. *)
Definition step (ev : event) (st : repository) : repository :=
  match ev with
  | AddStub s => let created := alloc s st in addStub (fst created) (snd created)
  | Resolve request =>
      match resolve request st with
      | Return r => snd r
      | Throw _ => st
      end
  | Done id result now => done id result now st
  end.

Definition run (trace : list event) (st : repository) : repository :=
  fold_left (fun st ev => step ev st) trace st.

(** Resolutions one after the other: each call of [resolve] is followed by
    the settlement of its own resolver before the next call is made.  The
    first call has identifier [id]. *)
Fixpoint sequential (id : nat) (requests : list (value * settlement * string))
    : list event :=
  match requests with
  | [] => []
  | (request, result, now) :: rest =>
      Resolve request :: Done id result now :: sequential (S id) rest
  end.

(** ** Notions used in the statements *)

(** The node of every top-level field, evaluated as the filter callback
    does. *)
Definition evaluateField (request : value) (fieldName : string) (node : value)
    : outcome value :=
  let! b := matchesPredicate fieldName node request in
  Return (VBool b).

(** [request] is matched by, and resolved with, [stub]. *)
Definition selects (st : repository) (request : value) (stub : loc) : Prop :=
  exists st', findFirstMatch request st = Return (Some stub, st').

(** A stub after [shift] and [push]: the head of its queue moved to the
    tail. *)
Definition rotated (s : Stub.t) : Stub.t :=
  {| Stub.predicates := Stub.predicates s;
     Stub.responses := tl (Stub.responses s) ++ [hd VUndefined (Stub.responses s)];
     Stub.matches := Stub.matches s |}.

(** A stub after a match was recorded. *)
Definition recorded (m : Match.t) (s : Stub.t) : Stub.t :=
  {| Stub.predicates := Stub.predicates s;
     Stub.responses := Stub.responses s;
     Stub.matches := Some (default [] (Stub.matches s) ++ [m]) |}.

(** Every stub object of [h] is still there in [h'], with its predicates. *)
Definition rules_preserved (h h' : list Stub.t) : Prop :=
  forall l s, h !! l = Some s ->
    exists s', h' !! l = Some s' /\ Stub.predicates s' = Stub.predicates s.

(** An event of a resolution: a call of [resolve] or a callback of [done]. *)
Definition resolving (ev : event) : Prop :=
  match ev with AddStub _ => False | _ => True end.

(** An event that is a completion, or a call of [resolve] whose request is
    matched by [stub]. *)
Definition against (st : repository) (stub : loc) (ev : event) : Prop :=
  match ev with
  | AddStub _ => False
  | Resolve request => selects st request stub
  | Done _ _ _ => True
  end.

(** Number of calls of [resolve] in a trace. *)
Fixpoint resolutions (trace : list event) : nat :=
  match trace with
  | [] => 0
  | Resolve _ :: rest => S (resolutions rest)
  | _ :: rest => resolutions rest
  end.

(** The descriptors at positions [m], [m+1], ... [m+n-1] of the endless
    repetition of the queue [rs]. *)
Fixpoint issued (rs : list value) (m n : nat) : list value :=
  match n with
  | 0 => []
  | S n' => default VUndefined (rs !! (m mod length rs)) :: issued rs (S m) n'
  end.

(** The descriptors handed to the resolver by the calls whose selected stub
    is [stub], in the order of the calls. *)
Definition issuedTo (stub : loc) (st : repository) : list value :=
  stubResolver <$> List.filter (fun c => Nat.eqb (call_stub c) stub) (calls st).

(** Whether an operator raises, and what it raises, is the same for the two
    requests: the operators of the table raise on their arguments, not on
    what is requested.  An entry that cannot be called, such as the
    inherited [__proto__], raises a TypeError for every request. *)
Definition operators_raise_alike (request1 request2 : value) : Prop :=
  forall key op fieldName arg,
    predicates key = Some op ->
    raised (op fieldName arg request1) = raised (op fieldName arg request2).

(** Whether the event is a call of [resolve] that selects [stub]: 1 or 0. *)
Definition selecting (stub : loc) (ev : event) (st : repository) : nat :=
  match ev with
  | Resolve request =>
      match findFirstMatch request st with
      | Return (Some l, _) => if Nat.eqb l stub then 1 else 0
      | _ => 0
      end
  | _ => 0
  end.

(** Number of the calls of [resolve] that select [stub] along the run of
    [trace] from [st]. *)
Fixpoint selections (stub : loc) (trace : list event) (st : repository) : nat :=
  match trace with
  | [] => 0
  | ev :: rest => selecting stub ev st + selections stub rest (step ev st)
  end.

(** A malformed predicate node, and the ValidationError that reports it:
    a node that the guard of [matchesPredicate] refuses; a node with a key
    that names no operator and whose argument is not of type object; or a
    node with a nested node that is malformed.  In a node, the keys before
    the one in question evaluate to a result.  [null] is not among them:
    [typeof] calls it an object. *)
Inductive malformed (request : value) : string -> value -> error -> Prop :=
| malformed_refused fieldName node :
    typeof node <> "object" \/ isArray node = true ->
    malformed request fieldName node
      (ValidationError "predicate must be an object" node)
| malformed_key fieldName before key arg after :
    Forall (fun kv => exists result,
              evaluateKey fieldName (VObj (before ++ (key, arg) :: after)) request
                (fst kv) (snd kv) = Return result) before ->
    predicates key = None ->
    typeof arg <> "object" ->
    malformed request fieldName (VObj (before ++ (key, arg) :: after))
      (ValidationError ("no predicate '" +:+ key +:+ "'")
         (VObj (before ++ (key, arg) :: after)))
| malformed_nested fieldName before key arg after e :
    Forall (fun kv => exists result,
              evaluateKey fieldName (VObj (before ++ (key, arg) :: after)) request
                (fst kv) (snd kv) = Return result) before ->
    predicates key = None ->
    typeof arg = "object" ->
    malformed request (fieldName +:+ "." +:+ key) arg e ->
    malformed request fieldName (VObj (before ++ (key, arg) :: after)) e.

(** ** The claims as the specification words them

    Stated here for the places where the code departs from the wording;
    each is refuted below at a concrete input. *)

(** First-match precedence, for every list in which two stubs match. *)
Definition first_match_as_stated (st : repository) (request : value) : Prop :=
  forall first second before between after,
    stubs st = before ++ first :: between ++ second :: after ->
    Forall (fun stub => stubMatches (heap st) request stub = Return false) before ->
    stubMatches (heap st) request first = Return true ->
    stubMatches (heap st) request second = Return true ->
    exists id st' c,
      resolve request st = Return (id, st') /\
      calls st' !! id = Some c /\ call_stub c = first.

(** A node with a recognized key and an invalid key raises ValidationError,
    whatever the recognized keys evaluate to. *)
Definition exhaustive_validation_as_stated (fieldName : string)
    (props : list (string * value)) (request : value) : Prop :=
  (exists key arg op, In (key, arg) props /\ predicates key = Some op) ->
  (exists key arg, In (key, arg) props /\ predicates key = None /\
                   typeof arg <> "object") ->
  (forall key arg op, In (key, arg) props -> predicates key = Some op ->
     exists result, op fieldName arg request = Return result) ->
  exists message source,
    matchesPredicate fieldName (VObj props) request =
      Throw (ValidationError message source).

(** A malformed stub anywhere in the list makes [resolve] fail with
    ValidationError. *)
Definition malformed_stub_as_stated (st : repository) (request : value) : Prop :=
  forall stub s field node,
    In stub (stubs st) ->
    heap st !! stub = Some s ->
    In (field, node) (default [] (Stub.predicates s)) ->
    (typeof node <> "object" \/
     exists props key arg, node = VObj props /\ In (key, arg) props /\
                           predicates key = None /\ typeof arg <> "object") ->
    exists message source,
      resolve request st = Throw (ValidationError message source).

(** ** Sequencing in the presence of exceptions *)

Lemma mapM_app_Throw {A B} (f : A -> outcome B) before x after e :
  Forall (fun a => exists b, f a = Return b) before ->
  f x = Throw e ->
  mapM f (before ++ x :: after) = Throw e.
Proof.
  intros Hbefore Hx.
  induction Hbefore as [|a before [b Hb] _ IH]; simpl.
  - now rewrite Hx.
  - rewrite Hb. simpl. now rewrite IH.
Qed.

Lemma filterM_app_Throw {A} (f : A -> outcome bool) before x after e :
  Forall (fun a => exists b, f a = Return b) before ->
  f x = Throw e ->
  filterM f (before ++ x :: after) = Throw e.
Proof.
  intros Hbefore Hx.
  induction Hbefore as [|a before [b Hb] _ IH]; simpl.
  - now rewrite Hx.
  - rewrite Hb. simpl. now rewrite IH.
Qed.

Lemma filterM_none {A} (f : A -> outcome bool) xs :
  Forall (fun a => f a = Return false) xs ->
  filterM f xs = Return [].
Proof.
  induction 1 as [|a xs Ha _ IH]; simpl; [reflexivity|].
  rewrite Ha. simpl. now rewrite IH.
Qed.

Lemma filterM_total {A} (f : A -> outcome bool) xs :
  Forall (fun a => exists b, f a = Return b) xs ->
  exists kept, filterM f xs = Return kept.
Proof.
  induction 1 as [|a xs [b Hb] _ [kept IH]]; simpl; [now exists []|].
  rewrite Hb, IH. simpl. eauto.
Qed.

Lemma filterM_first {A} (f : A -> outcome bool) before x after :
  Forall (fun a => f a = Return false) before ->
  f x = Return true ->
  Forall (fun a => exists b, f a = Return b) after ->
  exists rest, filterM f (before ++ x :: after) = Return (x :: rest).
Proof.
  intros Hbefore Hx Hafter.
  induction Hbefore as [|a before Ha _ IH]; simpl.
  - rewrite Hx. simpl.
    destruct (filterM_total f after Hafter) as [kept Hk].
    rewrite Hk. simpl. eauto.
  - rewrite Ha. simpl. destruct IH as [rest IH].
    rewrite IH. simpl. eauto.
Qed.

Lemma filterM_ext {A} (f g : A -> outcome bool) xs :
  Forall (fun a => f a = g a) xs ->
  filterM f xs = filterM g xs.
Proof.
  induction 1 as [|a xs Ha _ IH]; simpl; [reflexivity|].
  now rewrite Ha, IH.
Qed.

(** When the filter completes, its callback returned for every element. *)
Lemma filterM_Return_inv {A} (f : A -> outcome bool) xs kept :
  filterM f xs = Return kept ->
  Forall (fun a => exists b, f a = Return b) xs.
Proof.
  revert kept. induction xs as [|a xs IH]; intros kept H; [constructor|].
  simpl in H. destruct (f a) as [b|e] eqn:Ha; [|discriminate].
  simpl in H. destruct (filterM f xs) as [ys|e] eqn:Hxs; [|discriminate].
  constructor; eauto.
Qed.

Lemma mapM_ext_In {A B} (f g : A -> outcome B) xs :
  (forall x, In x xs -> f x = g x) ->
  mapM f xs = mapM g xs.
Proof.
  induction xs as [|x xs IH]; intros H; simpl; [reflexivity|].
  rewrite (H x) by now left. rewrite IH; [reflexivity|].
  intros y Hy. apply H. now right.
Qed.

(** ** Objects as property lists

    The source enumerates [Object.keys(obj)] and reads [obj[key]] in the
    callback; [trueForAll] hands each key to its callback together with its
    value.  For an object, whose keys are distinct, the two are the same. *)

Lemma get_other props key :
  ~ In key (Object_keys props) -> get props key = VUndefined.
Proof.
  induction props as [|[k v] props IH]; intros H; simpl; [reflexivity|].
  destruct (String.eqb_spec k key) as [->|Hne].
  - exfalso. apply H. now left.
  - apply IH. intros Hin. apply H. now right.
Qed.

Lemma get_In props key arg :
  List.NoDup (Object_keys props) ->
  In (key, arg) props ->
  get props key = arg.
Proof.
  induction props as [|[k v] props IH]; intros Hnd Hin; [destruct Hin|].
  simpl in *. inversion Hnd as [|? ? Hk Hnd']; subst.
  destruct Hin as [Heq|Hin].
  - inversion Heq; subst. now rewrite String.eqb_refl.
  - destruct (String.eqb_spec k key) as [->|Hne]; [|now apply IH].
    exfalso. apply Hk. apply in_map_iff. now exists (key, arg).
Qed.

Lemma mapM_Object_keys {B} (f : string -> value -> outcome B) props :
  List.NoDup (Object_keys props) ->
  mapM (fun key => f key (get props key)) (Object_keys props) =
  mapM (fun kv => f (fst kv) (snd kv)) props.
Proof.
  induction props as [|[k v] props IH]; intros Hnd; [reflexivity|].
  inversion Hnd as [|? ? Hk Hnd']; subst.
  assert (E : mapM (fun key => f key (get ((k, v) :: props) key)) (Object_keys props)
              = mapM (fun key => f key (get props key)) (Object_keys props)).
  { apply mapM_ext_In. intros key Hin. simpl.
    destruct (String.eqb_spec k key) as [->|Hne]; [contradiction|reflexivity]. }
  change (mapM (fun key => f key (get ((k, v) :: props) key))
            (Object_keys ((k, v) :: props)))
    with (let! y := f k (get ((k, v) :: props) k) in
          let! ys := mapM (fun key => f key (get ((k, v) :: props) key))
                       (Object_keys props) in
          Return (y :: ys)).
  rewrite E, (IH Hnd'). simpl. now rewrite String.eqb_refl.
Qed.

(** [trueForAll] as the source writes it. *)
Lemma trueForAll_Object_keys obj predicate :
  List.NoDup (Object_keys obj) ->
  trueForAll obj predicate =
  let! results := mapM (fun key => predicate key (get obj key)) (Object_keys obj) in
  Return (forallb truthy results).
Proof. intros Hnd. unfold trueForAll. now rewrite mapM_Object_keys. Qed.

(** ** Predicate evaluation: unfolding *)

Lemma matchesPredicate_object fieldName props request :
  matchesPredicate fieldName (VObj props) request =
  trueForAll props (evaluateKey fieldName (VObj props) request).
Proof. reflexivity. Qed.

(** The guard of [matchesPredicate]: whatever [typeof] does not call an
    object, and every array, is refused before any key is looked at. *)
Lemma matchesPredicate_guard fieldName predicate request :
  typeof predicate <> "object" \/ isArray predicate = true ->
  matchesPredicate fieldName predicate request =
  Throw (ValidationError "predicate must be an object" predicate).
Proof.
  intros [H|H]; destruct predicate; simpl in *; try congruence; reflexivity.
Qed.

Lemma evaluateKey_invalid fieldName node request key arg :
  predicates key = None ->
  typeof arg <> "object" ->
  evaluateKey fieldName node request key arg =
  Throw (ValidationError ("no predicate '" +:+ key +:+ "'") node).
Proof.
  intros Hkey Harg. unfold evaluateKey, evaluateKeyWith. rewrite Hkey.
  destruct (String.eqb_spec (typeof arg) "object"); [contradiction|reflexivity].
Qed.

Lemma evaluateKey_operator fieldName node request key arg op :
  predicates key = Some op ->
  evaluateKey fieldName node request key arg = op fieldName arg request.
Proof. intros Hkey. unfold evaluateKey, evaluateKeyWith. now rewrite Hkey. Qed.

Lemma evaluateKey_nested fieldName node request key arg :
  predicates key = None ->
  typeof arg = "object" ->
  evaluateKey fieldName node request key arg =
  let! b := matchesPredicate (fieldName +:+ "." +:+ key) arg request in
  Return (VBool b).
Proof.
  intros Hkey Harg. unfold evaluateKey, evaluateKeyWith. rewrite Hkey, Harg.
  reflexivity.
Qed.

(** ** Selection: unfolding *)

Lemma stubMatches_lookup objects request stub s :
  objects !! stub = Some s ->
  stubMatches objects request stub =
  trueForAll (default [] (Stub.predicates s)) (evaluateField request).
Proof. intros H. unfold stubMatches. now rewrite H. Qed.

Lemma filterM_kept {A} (f : A -> outcome bool) xs kept x :
  filterM f xs = Return kept ->
  In x kept -> In x xs /\ f x = Return true.
Proof.
  revert kept. induction xs as [|a xs IH]; intros kept H Hx; simpl in H.
  - inversion H; subst. destruct Hx.
  - destruct (f a) as [b|e] eqn:Ha; [|discriminate]. simpl in H.
    destruct (filterM f xs) as [ys|e] eqn:Hxs; [|discriminate]. simpl in H.
    destruct b; inversion H; subst; clear H.
    + destruct Hx as [->|Hx]; [split; [now left|assumption]|].
      destruct (IH _ eq_refl Hx); split; [now right|assumption].
    + destruct (IH _ eq_refl Hx); split; [now right|assumption].
Qed.

Lemma stubMatches_allocated objects request stub b :
  stubMatches objects request stub = Return b ->
  exists s, objects !! stub = Some s.
Proof.
  unfold stubMatches. destruct (objects !! stub) as [s|]; [eauto|discriminate].
Qed.

Lemma findFirstMatch_filter request st stub rest :
  filterM (stubMatches (heap st) request) (stubs st) = Return (stub :: rest) ->
  findFirstMatch request st =
  Return (Some stub, logger_debug (UsingPredicateMatch (shownPredicates st stub)) st).
Proof.
  intros H. unfold findFirstMatch.
  destruct (stubs st) as [|l ls] eqn:Hstubs; [discriminate|].
  simpl length. simpl Nat.eqb. cbv iota. rewrite H. reflexivity.
Qed.

Lemma findFirstMatch_Some request st stub st' :
  findFirstMatch request st = Return (Some stub, st') ->
  (exists rest,
     filterM (stubMatches (heap st) request) (stubs st) = Return (stub :: rest)) /\
  st' = logger_debug (UsingPredicateMatch (shownPredicates st stub)) st.
Proof.
  unfold findFirstMatch. intros H.
  destruct (Nat.eqb (length (stubs st)) 0); [discriminate|].
  destruct (filterM _ _) as [[|first rest]|e] eqn:Hf; simpl in H; try discriminate.
  inversion H; subst. split; [eauto|reflexivity].
Qed.

Lemma selects_allocated st request stub :
  selects st request stub -> exists s, heap st !! stub = Some s.
Proof.
  intros [st' H]. apply findFirstMatch_Some in H as [[rest Hf] _].
  destruct (filterM_kept _ _ _ stub Hf) as [_ Hm]; [now left|].
  eapply stubMatches_allocated; eassumption.
Qed.

Lemma findFirstMatch_none request st :
  Forall (fun stub => stubMatches (heap st) request stub = Return false) (stubs st) ->
  findFirstMatch request st = Return (None, st) \/
  findFirstMatch request st = Return (None, logger_debug NoPredicateMatch st).
Proof.
  intros H. unfold findFirstMatch.
  destruct (Nat.eqb (length (stubs st)) 0); [now left|].
  rewrite (filterM_none _ _ H). now right.
Qed.

Lemma findFirstMatch_Throw request st before stub after e :
  stubs st = before ++ stub :: after ->
  Forall (fun l => exists b, stubMatches (heap st) request l = Return b) before ->
  stubMatches (heap st) request stub = Throw e ->
  findFirstMatch request st = Throw e.
Proof.
  intros Hstubs Hbefore Hstub. unfold findFirstMatch. rewrite Hstubs.
  rewrite (filterM_app_Throw _ _ _ _ _ Hbefore Hstub).
  rewrite length_app. simpl.
  replace (length before + S (length after)) with (S (length before + length after)) by lia.
  reflexivity.
Qed.

Lemma selects_first st request before stub after :
  stubs st = before ++ stub :: after ->
  Forall (fun l => stubMatches (heap st) request l = Return false) before ->
  stubMatches (heap st) request stub = Return true ->
  Forall (fun l => exists b, stubMatches (heap st) request l = Return b) after ->
  selects st request stub.
Proof.
  intros Hstubs Hbefore Hstub Hafter.
  destruct (filterM_first _ _ _ _ Hbefore Hstub Hafter) as [rest Hf].
  rewrite <- Hstubs in Hf. eexists. eapply findFirstMatch_filter, Hf.
Qed.

(** ** Resolution: unfolding *)

Lemma resolve_selected request st stub s :
  selects st request stub ->
  heap st !! stub = Some s ->
  resolve request st =
  Return (length (calls st),
          {| heap := <[stub := rotated s]> (heap st);
             stubs := stubs st;
             calls := calls st ++
                      [Call stub (hd VUndefined (Stub.responses s)) request Pending];
             debug := debug st ++
                      [UsingPredicateMatch (default [] (Stub.predicates s))] |}).
Proof.
  intros [st' Hfind] Hs.
  destruct (findFirstMatch_Some _ _ _ _ Hfind) as [_ ->].
  unfold resolve, selectStub. rewrite Hfind. simpl.
  unfold responses_shift. simpl. rewrite Hs. simpl.
  unfold responses_push. simpl.
  assert (Hlt : stub < length (heap st)) by (eapply lookup_lt_Some; eassumption).
  rewrite list_lookup_insert_eq by assumption. simpl.
  unfold resolver_resolve, store. simpl.
  rewrite list_insert_insert_eq.
  unfold shownPredicates. rewrite Hs. reflexivity.
Qed.

Lemma findFirstMatch_None request st st0 :
  findFirstMatch request st = Return (None, st0) ->
  heap st0 = heap st /\ stubs st0 = stubs st /\ calls st0 = calls st.
Proof.
  unfold findFirstMatch. intros H.
  destruct (Nat.eqb (length (stubs st)) 0).
  - inversion H; subst. auto.
  - destruct (filterM _ _) as [[|first rest]|e]; simpl in H; try discriminate.
    inversion H; subst. auto.
Qed.

Lemma insert_snoc {A} (xs : list A) (x y : A) :
  <[length xs := y]> (xs ++ [x]) = xs ++ [y].
Proof.
  replace (length xs) with (length xs + 0) by lia.
  now rewrite insert_app_r.
Qed.

Lemma lookup_snoc {A} (xs : list A) (x : A) :
  (xs ++ [x]) !! length xs = Some x.
Proof. now rewrite list_lookup_middle. Qed.

Lemma resolve_implicit request st st0 :
  findFirstMatch request st = Return (None, st0) ->
  resolve request st =
  Return (length (calls st),
          {| heap := heap st ++ [implicitStub];
             stubs := stubs st;
             calls := calls st ++
                      [Call (length (heap st)) (VObj [("is", VObj [])]) request Pending];
             debug := debug st0 |}).
Proof.
  intros Hfind.
  destruct (findFirstMatch_None _ _ _ Hfind) as (Hheap & Hstubs & Hcalls).
  unfold resolve, selectStub. rewrite Hfind. simpl.
  unfold responses_shift. simpl. rewrite Hheap, lookup_snoc. simpl.
  unfold responses_push. simpl. rewrite insert_snoc, lookup_snoc. simpl.
  unfold resolver_resolve, store. simpl.
  rewrite !insert_snoc, Hstubs, Hcalls. reflexivity.
Qed.

Lemma resolve_Throw request st e :
  findFirstMatch request st = Throw e -> resolve request st = Throw e.
Proof. intros H. unfold resolve, selectStub. now rewrite H. Qed.

(** Every way [resolve] can go. *)
Lemma resolve_cases request st :
  (exists stub s, selects st request stub /\ heap st !! stub = Some s) \/
  (exists st0, findFirstMatch request st = Return (None, st0)) \/
  (exists e, findFirstMatch request st = Throw e).
Proof.
  destruct (findFirstMatch request st) as [[[stub|] st0]|e] eqn:H.
  - left. exists stub.
    destruct (selects_allocated st request stub) as [s Hs]; [now exists st0|].
    exists s. split; [now exists st0|assumption].
  - right. left. eauto.
  - right. right. eauto.
Qed.

(** The callbacks of [done] on a pending call. *)
Lemma done_Resolved st id c s response now :
  calls st !! id = Some c ->
  deferred c = Pending ->
  heap st !! call_stub c = Some s ->
  done id (Resolved response) now st =
  {| heap := <[call_stub c :=
                 recorded {| Match.timestamp := now;
                             Match.request := call_request c;
                             Match.response := response |} s]> (heap st);
     stubs := stubs st;
     calls := <[id := Call (call_stub c) (stubResolver c) (call_request c)
                           (Fulfilled response)]> (calls st);
     debug := debug st |}.
Proof.
  intros Hc Hp Hs. unfold done. rewrite Hc, Hp.
  unfold onResolved, matches_push. rewrite Hs.
  unfold settle, store. simpl. rewrite Hc. reflexivity.
Qed.

Lemma done_Failed st id c reason now :
  calls st !! id = Some c ->
  deferred c = Pending ->
  done id (Failed reason) now st =
  {| heap := heap st;
     stubs := stubs st;
     calls := <[id := Call (call_stub c) (stubResolver c) (call_request c)
                           (Rejected reason)]> (calls st);
     debug := debug st |}.
Proof.
  intros Hc Hp. unfold done. rewrite Hc, Hp.
  unfold onRejected, settle. rewrite Hc. reflexivity.
Qed.

(** ** What resolving and settling leave alone *)

Lemma rules_preserved_refl h : rules_preserved h h.
Proof. intros l s H. eauto. Qed.

Lemma rules_preserved_trans h1 h2 h3 :
  rules_preserved h1 h2 -> rules_preserved h2 h3 -> rules_preserved h1 h3.
Proof.
  intros H12 H23 l s H. destruct (H12 l s H) as (s2 & H2 & E2).
  destruct (H23 l s2 H2) as (s3 & H3 & E3). exists s3. split; congruence.
Qed.

Lemma rules_preserved_insert h l s s1 :
  h !! l = Some s ->
  Stub.predicates s1 = Stub.predicates s ->
  rules_preserved h (<[l := s1]> h).
Proof.
  intros Hl E l' s' H'. destruct (decide (l = l')) as [<-|Hne].
  - exists s1. rewrite list_lookup_insert_eq by (eapply lookup_lt_Some; eassumption).
    split; congruence.
  - exists s'. now rewrite list_lookup_insert_ne.
Qed.

Lemma rules_preserved_snoc h s : rules_preserved h (h ++ [s]).
Proof. intros l s' H. exists s'. split; [now apply lookup_app_l_Some|reflexivity]. Qed.

Lemma stubMatches_preserved h h' request l b :
  rules_preserved h h' ->
  stubMatches h request l = Return b ->
  stubMatches h' request l = Return b.
Proof.
  intros Hp H. destruct (stubMatches_allocated _ _ _ _ H) as [s Hs].
  destruct (Hp l s Hs) as (s' & Hs' & E).
  rewrite (stubMatches_lookup _ _ _ _ Hs) in H.
  rewrite (stubMatches_lookup _ _ _ _ Hs'). now rewrite E.
Qed.

Lemma selects_preserved st st' request stub :
  stubs st' = stubs st ->
  rules_preserved (heap st) (heap st') ->
  selects st request stub ->
  selects st' request stub.
Proof.
  intros Hstubs Hrules [st0 Hfind].
  apply findFirstMatch_Some in Hfind as [[rest Hf] _].
  eexists. eapply findFirstMatch_filter with (rest := rest).
  rewrite Hstubs, <- Hf. symmetry. apply filterM_ext.
  eapply Forall_impl; [eapply filterM_Return_inv, Hf|].
  intros l [b Hb]. simpl. rewrite Hb. symmetry.
  eapply stubMatches_preserved; eassumption.
Qed.

Lemma run_cons ev trace st : run (ev :: trace) st = run trace (step ev st).
Proof. reflexivity. Qed.

Lemma run_app t1 t2 st : run (t1 ++ t2) st = run t2 (run t1 st).
Proof. unfold run. now rewrite fold_left_app. Qed.

(** The effect of an event of a resolution on the repository and on one of
    its stubs. *)
Lemma step_frame ev st :
  resolving ev ->
  stubs (step ev st) = stubs st /\ rules_preserved (heap st) (heap (step ev st)).
Proof.
  destruct ev as [s0|request|id result now]; simpl; [contradiction| |]; intros _.
  - destruct (resolve_cases request st) as [(stub & s & Hsel & Hs)|[[st0 H]|[e H]]].
    + rewrite (resolve_selected _ _ _ _ Hsel Hs). simpl. split; [reflexivity|].
      eapply rules_preserved_insert; [eassumption|reflexivity].
    + rewrite (resolve_implicit _ _ _ H). simpl. split; [reflexivity|].
      apply rules_preserved_snoc.
    + rewrite (resolve_Throw _ _ _ H). split; [reflexivity|apply rules_preserved_refl].
  - unfold done.
    destruct (calls st !! id) as [c|] eqn:Hc;
      [|split; [reflexivity|apply rules_preserved_refl]].
    destruct (deferred c) eqn:Hp;
      try (split; [reflexivity|apply rules_preserved_refl]).
    destruct result as [response|reason].
    + unfold onResolved, matches_push, settle.
      destruct (heap st !! call_stub c) as [s|] eqn:Hs; simpl; rewrite Hc; simpl.
      * split; [reflexivity|].
        eapply rules_preserved_insert; [eassumption|reflexivity].
      * split; [reflexivity|apply rules_preserved_refl].
    + unfold onRejected, settle. rewrite Hc. simpl.
      split; [reflexivity|apply rules_preserved_refl].
Qed.

Lemma run_frame trace st :
  Forall resolving trace ->
  stubs (run trace st) = stubs st /\ rules_preserved (heap st) (heap (run trace st)).
Proof.
  intros H. revert st. induction H as [|ev trace Hev _ IH]; intros st.
  - split; [reflexivity|apply rules_preserved_refl].
  - rewrite run_cons. destruct (step_frame ev st Hev) as [E1 R1].
    destruct (IH (step ev st)) as [E2 R2]. split; [congruence|].
    eapply rules_preserved_trans; eassumption.
Qed.

(** ** Rotation of a queue *)

Lemma succ_mod n k :
  0 < k ->
  S n mod k = if decide (S (n mod k) = k) then 0 else S (n mod k).
Proof.
  intros Hk. pose proof (Nat.mod_upper_bound n k ltac:(lia)) as Hlt.
  pose proof (Nat.div_mod_eq n k) as Hn.
  case_decide as Hc.
  - symmetry. apply Nat.mod_unique with (q := S (n / k)); lia.
  - symmetry. apply Nat.mod_unique with (q := n / k); lia.
Qed.

Lemma rotate_head {A} (d : A) (rs : list A) m :
  rs <> [] ->
  hd d (rotate m rs) = default d (rs !! (m mod length rs)).
Proof.
  intros Hne. unfold rotate.
  assert (Hlt : m mod length rs < length rs).
  { apply Nat.mod_upper_bound. destruct rs; [contradiction|simpl; lia]. }
  destruct (lookup_lt_is_Some_2 _ _ Hlt) as [x Hx].
  rewrite Hx, (drop_S _ _ _ Hx). reflexivity.
Qed.

Lemma rotate_shift_push {A} (d : A) (rs : list A) m :
  rs <> [] ->
  tl (rotate m rs) ++ [hd d (rotate m rs)] = rotate (S m) rs.
Proof.
  intros Hne. unfold rotate.
  assert (Hk : 0 < length rs) by (destruct rs; [contradiction|simpl; lia]).
  assert (Hlt : m mod length rs < length rs) by (apply Nat.mod_upper_bound; lia).
  destruct (lookup_lt_is_Some_2 _ _ Hlt) as [x Hx].
  rewrite (succ_mod m _ Hk), (drop_S _ _ _ Hx). simpl.
  rewrite <- app_assoc, <- (take_S_r _ _ _ Hx).
  case_decide as Hc.
  - rewrite Hc, drop_all, firstn_all. simpl. now rewrite app_nil_r.
  - reflexivity.
Qed.

Lemma rotate_0 {A} (rs : list A) : rotate 0 rs = rs.
Proof.
  unfold rotate. destruct rs as [|r rs]; [reflexivity|].
  rewrite Nat.Div0.mod_0_l. simpl. now rewrite app_nil_r.
Qed.

Lemma rotate_length {A} (rs : list A) : rotate (length rs) rs = rs.
Proof.
  unfold rotate. rewrite Nat.Div0.mod_same. simpl. now rewrite app_nil_r.
Qed.

Lemma length_issued rs m n : length (issued rs m n) = n.
Proof. revert m. induction n as [|n IH]; intros m; simpl; [reflexivity|]. now rewrite IH. Qed.

Lemma lookup_issued rs m n j :
  j < n ->
  issued rs m n !! j = Some (default VUndefined (rs !! ((m + j) mod length rs))).
Proof.
  revert m j. induction n as [|n IH]; intros m j Hj; [lia|].
  destruct j as [|j]; simpl.
  - now rewrite Nat.add_0_r.
  - rewrite IH by lia. now replace (S m + j) with (m + S j) by lia.
Qed.

Lemma issued_app rs m n1 n2 :
  issued rs m (n1 + n2) = issued rs m n1 ++ issued rs (m + n1) n2.
Proof.
  revert m. induction n1 as [|n1 IH]; intros m; simpl.
  - now rewrite Nat.add_0_r.
  - rewrite IH. now replace (S m + n1) with (m + S n1) by lia.
Qed.

(** ** The queue of a stub along a run *)

Lemma done_queue st id result now l s :
  heap st !! l = Some s ->
  let st' := done id result now st in
  stubs st' = stubs st /\
  stubResolver <$> calls st' = stubResolver <$> calls st /\
  call_stub <$> calls st' = call_stub <$> calls st /\
  exists s', heap st' !! l = Some s' /\
             Stub.responses s' = Stub.responses s /\
             Stub.predicates s' = Stub.predicates s.
Proof.
  intros Hl. simpl. unfold done.
  destruct (calls st !! id) as [c|] eqn:Hc; [|now eauto 10].
  destruct (deferred c) eqn:Hp; try (now eauto 10).
  assert (Hcalls : forall p,
    (stubResolver <$> <[id := Call (call_stub c) (stubResolver c) (call_request c) p]> (calls st)
       = stubResolver <$> calls st) /\
    (call_stub <$> <[id := Call (call_stub c) (stubResolver c) (call_request c) p]> (calls st)
       = call_stub <$> calls st)).
  { intros p. rewrite !list_fmap_insert. simpl.
    split; apply list_insert_id; rewrite list_lookup_fmap, Hc; reflexivity. }
  destruct result as [response|reason].
  - unfold onResolved, matches_push, settle.
    destruct (heap st !! call_stub c) as [s0|] eqn:Hs; simpl; rewrite Hc; simpl;
      destruct (Hcalls (Fulfilled response)) as [E1 E2];
      (split; [reflexivity|split; [exact E1|split; [exact E2|]]]).
    + destruct (decide (call_stub c = l)) as [E|Hne].
      * rewrite E in *. rewrite list_lookup_insert_eq
          by (eapply lookup_lt_Some; eassumption).
        eexists. split; [reflexivity|]. simpl. split; congruence.
      * rewrite list_lookup_insert_ne by assumption. eauto.
    + eauto.
  - unfold onRejected, settle. rewrite Hc. simpl.
    destruct (Hcalls (Rejected reason)) as [E1 E2]. eauto 10.
Qed.

Lemma resolve_queue st request l s :
  selects st request l ->
  heap st !! l = Some s ->
  let st' := step (Resolve request) st in
  stubs st' = stubs st /\
  stubResolver <$> calls st' =
    (stubResolver <$> calls st) ++ [hd VUndefined (Stub.responses s)] /\
  call_stub <$> calls st' = (call_stub <$> calls st) ++ [l] /\
  heap st' !! l = Some (rotated s).
Proof.
  intros Hsel Hs. simpl. rewrite (resolve_selected _ _ _ _ Hsel Hs). simpl.
  rewrite !fmap_app. simpl.
  rewrite list_lookup_insert_eq by (eapply lookup_lt_Some; eassumption).
  auto.
Qed.

Lemma against_preserved st st' stub trace :
  stubs st' = stubs st ->
  rules_preserved (heap st) (heap st') ->
  Forall (against st stub) trace ->
  Forall (against st' stub) trace.
Proof.
  intros E R H. eapply Forall_impl; [exact H|].
  intros [s0|request|id result now]; simpl; auto.
  now apply selects_preserved.
Qed.

Lemma against_resolving st stub ev : against st stub ev -> resolving ev.
Proof. destruct ev; simpl; auto. Qed.

(** Along any run of calls matched by [stub] and of completions, the queue
    of [stub] advances by one position for each call and the calls receive
    the positions in order. *)
Lemma run_rotation (rs : list value) stub trace :
  rs <> [] ->
  forall st s m,
    heap st !! stub = Some s ->
    Stub.responses s = rotate m rs ->
    Forall (against st stub) trace ->
    let st' := run trace st in
    let n := resolutions trace in
    stubs st' = stubs st /\
    stubResolver <$> calls st' = (stubResolver <$> calls st) ++ issued rs m n /\
    call_stub <$> calls st' = (call_stub <$> calls st) ++ replicate n stub /\
    exists s', heap st' !! stub = Some s' /\
               Stub.responses s' = rotate (m + n) rs /\
               Stub.predicates s' = Stub.predicates s.
Proof.
  intros Hne. induction trace as [|ev trace IH]; intros st s m Hs Hq Hall;
    cbv zeta.
  - simpl. rewrite !app_nil_r, Nat.add_0_r. eauto 10.
  - inversion Hall as [|? ? Hev Hrest]; subst.
    destruct (step_frame ev st (against_resolving _ _ _ Hev)) as [Estubs Hrules].
    pose proof (against_preserved _ _ _ _ Estubs Hrules Hrest) as Hrest'.
    rewrite run_cons.
    destruct ev as [s0|request|id result now]; [destruct Hev| |];
      simpl resolutions.
    + destruct (resolve_queue st request stub s Hev Hs) as (E1 & E2 & E3 & E4).
      assert (Hq' : Stub.responses (rotated s) = rotate (S m) rs).
      { simpl. rewrite Hq. now apply rotate_shift_push. }
      destruct (IH _ _ _ E4 Hq' Hrest') as (F1 & F2 & F3 & s' & F4 & F5 & F6).
      clear IH. split; [now rewrite F1|]. split; [|split].
      * rewrite F2, E2, <- app_assoc. simpl. do 3 f_equal.
        rewrite Hq. now apply rotate_head.
      * rewrite F3, E3, <- app_assoc. reflexivity.
      * exists s'. split; [assumption|]. split; [|assumption].
        rewrite F5. f_equal. lia.
    + change (step (Done id result now) st) with (done id result now st) in *.
      destruct (done_queue st id result now stub s Hs) as (E1 & E2 & E3 & s1 & E4 & E5 & E6).
      assert (Hq' : Stub.responses s1 = rotate m rs) by (now rewrite E5).
      destruct (IH _ _ _ E4 Hq' Hrest') as (F1 & F2 & F3 & s' & F4 & F5 & F6).
      clear IH. split; [now rewrite F1|]. split; [now rewrite F2, E2|].
      split; [now rewrite F3, E3|].
      exists s'. split; [assumption|]. split; [assumption|now rewrite F6].
Qed.

(** ** Predicate evaluation: properties *)

Lemma mapM_app {A B} (f : A -> outcome B) xs ys :
  mapM f (xs ++ ys) =
  let! before := mapM f xs in
  let! after := mapM f ys in
  Return (before ++ after).
Proof.
  induction xs as [|x xs IH]; simpl.
  - destruct (mapM f ys); reflexivity.
  - destruct (f x) as [y|e]; [|reflexivity]. simpl. rewrite IH.
    destruct (mapM f xs) as [zs|e]; [|reflexivity]. simpl.
    destruct (mapM f ys); reflexivity.
Qed.

(** C2 (amended): exhaustive validation.  In a predicate node, let [key] be
    a key that neither names a recognized operator nor has an argument of
    type object; a key is recognized when the lookup [predicates[key]] is
    truthy.  If every key before it, in key order, evaluates to a result,
    then evaluation of the node raises the ValidationError naming [key],
    whatever those results are, true or false, and whatever keys follow: a
    result never ends the traversal of the keys.  If a key before it raises,
    the error of the first key that raises is what the evaluation of the
    node raises, whatever the keys after that one are: they are not
    reached. *)
Theorem exhaustive_validation fieldName request before key arg after :
  predicates key = None ->
  typeof arg <> "object" ->
  let node := VObj (before ++ (key, arg) :: after) in
  (Forall (fun kv => exists result,
             evaluateKey fieldName node request (fst kv) (snd kv) = Return result)
     before ->
   matchesPredicate fieldName node request =
   Throw (ValidationError ("no predicate '" +:+ key +:+ "'") node)) /\
  (forall earlier first later e,
     before = earlier ++ first :: later ->
     Forall (fun kv => exists result,
               evaluateKey fieldName node request (fst kv) (snd kv) = Return result)
       earlier ->
     evaluateKey fieldName node request (fst first) (snd first) = Throw e ->
     matchesPredicate fieldName node request = Throw e).
Proof.
  intros Hkey Harg node. split.
  - intros Hbefore. unfold node.
    rewrite matchesPredicate_object. unfold trueForAll.
    erewrite mapM_app_Throw; [reflexivity|exact Hbefore|].
    simpl. now apply evaluateKey_invalid.
  - intros earlier first later e -> Hearlier Hfirst.
    change (matchesPredicate fieldName node request)
      with (trueForAll ((earlier ++ first :: later) ++ (key, arg) :: after)
              (evaluateKey fieldName node request)).
    clearbody node. unfold trueForAll. rewrite <- app_assoc. cbn [app].
    erewrite mapM_app_Throw; [reflexivity|exact Hearlier|exact Hfirst].
Qed.

(** C7: nested field addressing.  Let [key], in a predicate node, name no
    recognized operator and have an argument of type object.  Then
    [matchesPredicate] evaluates the keys before it, evaluates the argument
    as a predicate node under the field name extended by a dot and the key,
    evaluates the keys after it, and answers the conjunction; an exception
    of the nested evaluation is an exception of the node.  In the stub
    [{"headers": {"equals": {"X-Test": "a"}}}] the key [headers] is a field
    name and [equals] an operator: the stub matches a request exactly when
    the operator, called with the field name [headers], the mapping
    [{"X-Test": "a"}] and the request, says so. *)
Theorem nested_field_addressing fieldName before key arg after request :
  predicates key = None ->
  typeof arg = "object" ->
  let node := VObj (before ++ (key, arg) :: after) in
  let sibling := fun kv => evaluateKey fieldName node request (fst kv) (snd kv) in
  matchesPredicate fieldName node request =
    (let! resultsBefore := mapM sibling before in
     let! nested := matchesPredicate (fieldName +:+ "." +:+ key) arg request in
     let! resultsAfter := mapM sibling after in
     Return (forallb truthy resultsBefore && nested && forallb truthy resultsAfter)) /\
  (forall op objects stub s r verdict,
     predicates "equals" = Some op ->
     objects !! stub = Some s ->
     Stub.predicates s = Some Examples.headerIsA ->
     op "headers" (VObj [("X-Test", VStr "a")]) r = Return verdict ->
     stubMatches objects r stub = Return (truthy verdict)).
Proof.
  intros Hkey Harg node sibling. split.
  - unfold node. rewrite matchesPredicate_object. unfold trueForAll.
    rewrite mapM_app. fold node. fold sibling.
    destruct (mapM sibling before) as [resultsBefore|e]; [|reflexivity].
    cbn [bind mapM]. unfold sibling at 1. cbn [fst snd].
    rewrite (evaluateKey_nested _ _ _ _ _ Hkey Harg).
    destruct (matchesPredicate _ arg request) as [nested|e]; [|reflexivity].
    cbn [bind]. fold sibling.
    destruct (mapM sibling after) as [resultsAfter|e]; [|reflexivity].
    cbn [bind]. rewrite forallb_app. cbn [forallb truthy].
    now rewrite andb_assoc.
  - intros op objects stub s r verdict Hop Hs Hp Hverdict.
    rewrite (stubMatches_lookup _ _ _ _ Hs), Hp.
    unfold trueForAll, evaluateField, Examples.headerIsA. simpl.
    unfold trueForAll, evaluateKeyWith. simpl. rewrite Hop, Hverdict. simpl.
    now rewrite !andb_true_r.
Qed.

(** C8 (the code departs from the claim): a predicate node that is [null]
    is not refused with a ValidationError.  It passes the guard of
    [matchesPredicate], because [typeof null] is ['object'], and the
    enumeration of its keys raises a TypeError. *)
Theorem null_predicate_raises_TypeError fieldName request :
  matchesPredicate fieldName VNull request =
  Throw (TypeError "Cannot convert undefined or null to object").
Proof. reflexivity. Qed.

(** ** Selection: properties *)

(** C1 (amended): first-match precedence.  Let every stub of the list
    evaluate without raising for the request, and let [stub] be the
    earliest in insertion order that matches it; stubs after it may match
    as well.  Then, after any number of earlier calls of [resolve] and of
    completions, [resolve] selects [stub]: the resolver is invoked with the
    head of the queue of [stub], and it is the queue of [stub] that is
    rotated.  When instead the evaluation of [stub] raises, and the stubs
    before it evaluate without raising, [resolve] raises that exception and
    selects no stub. *)
Theorem first_match_precedence st request before stub after :
  stubs st = before ++ stub :: after ->
  (Forall (fun l => stubMatches (heap st) request l = Return false) before ->
   stubMatches (heap st) request stub = Return true ->
   Forall (fun l => exists b, stubMatches (heap st) request l = Return b) after ->
   forall trace,
     Forall resolving trace ->
     let st1 := run trace st in
     exists s st2,
       heap st1 !! stub = Some s /\
       resolve request st1 = Return (length (calls st1), st2) /\
       calls st2 = calls st1 ++
                   [Call stub (hd VUndefined (Stub.responses s)) request Pending] /\
       heap st2 = <[stub := rotated s]> (heap st1)) /\
  (forall e,
     Forall (fun l => exists b, stubMatches (heap st) request l = Return b) before ->
     stubMatches (heap st) request stub = Throw e ->
     resolve request st = Throw e /\
     (forall l, ~ selects st request l)).
Proof.
  intros Hstubs. split.
  - intros Hbefore Hfirst Hafter trace Htrace st1.
    pose proof (selects_first _ _ _ _ _ Hstubs Hbefore Hfirst Hafter) as Hsel.
    destruct (run_frame trace st Htrace) as [E R].
    pose proof (selects_preserved _ _ _ _ E R Hsel) as Hsel1.
    destruct (selects_allocated _ _ _ Hsel1) as [s Hs].
    exists s. eexists. split; [exact Hs|].
    split; [apply (resolve_selected _ _ _ _ Hsel1 Hs)|]. simpl. auto.
  - intros e Hbefore Hstub.
    pose proof (findFirstMatch_Throw _ _ _ _ _ _ Hstubs Hbefore Hstub) as Hfind.
    split; [now apply resolve_Throw|].
    intros l [st' H]. rewrite Hfind in H. discriminate H.
Qed.

(** C4: no-match fallback.  When the repository holds no stub, or every
    stub evaluates to false for the request, [resolve] does not raise: it
    creates the implicit stub, whose only descriptor is [{ is: {} }], invokes
    the resolver with that descriptor, and the returned promise is settled
    with whatever the resolver settles with. *)
Theorem no_match_fallback st request :
  Forall (fun stub => stubMatches (heap st) request stub = Return false) (stubs st) ->
  exists st',
    resolve request st = Return (length (calls st), st') /\
    heap st' = heap st ++ [implicitStub] /\
    stubs st' = stubs st /\
    calls st' = calls st ++
                [Call (length (heap st)) (VObj [("is", VObj [])]) request Pending] /\
    forall result now,
      calls (done (length (calls st)) result now st') !! length (calls st) =
      Some (Call (length (heap st)) (VObj [("is", VObj [])]) request
              match result with
              | Resolved response => Fulfilled response
              | Failed reason => Rejected reason
              end).
Proof.
  intros Hnone.
  assert (Hfind : exists st0, findFirstMatch request st = Return (None, st0)).
  { destruct (findFirstMatch_none _ _ Hnone) as [H|H]; eauto. }
  destruct Hfind as [st0 Hfind].
  eexists. split; [apply (resolve_implicit _ _ _ Hfind)|]. simpl.
  repeat (split; [reflexivity|]).
  intros result now.
  set (c := Call (length (heap st)) (VObj [("is", VObj [])]) request Pending).
  destruct result as [response|reason].
  - erewrite done_Resolved with (c := c) (s := implicitStub);
      [|apply lookup_snoc|reflexivity|apply lookup_snoc]. simpl.
    apply list_lookup_insert_eq. rewrite length_app. simpl. lia.
  - erewrite done_Failed with (c := c); [|apply lookup_snoc|reflexivity]. simpl.
    apply list_lookup_insert_eq. rewrite length_app. simpl. lia.
Qed.

(** ** Malformed predicates *)

Lemma malformed_raises request fieldName node e :
  malformed request fieldName node e ->
  matchesPredicate fieldName node request = Throw e.
Proof.
  induction 1 as [fieldName node Hnode
                 |fieldName before key arg after Hbefore Hkey Harg
                 |fieldName before key arg after e Hbefore Hkey Harg _ IH].
  - now apply matchesPredicate_guard.
  - rewrite matchesPredicate_object. unfold trueForAll.
    erewrite mapM_app_Throw; [reflexivity|exact Hbefore|].
    cbn [fst snd]. now apply evaluateKey_invalid.
  - rewrite matchesPredicate_object. unfold trueForAll.
    erewrite mapM_app_Throw; [reflexivity|exact Hbefore|].
    cbn [fst snd]. rewrite (evaluateKey_nested _ _ _ _ _ Hkey Harg).
    now rewrite IH.
Qed.

Lemma malformed_ValidationError request fieldName node e :
  malformed request fieldName node e ->
  exists message source, e = ValidationError message source.
Proof. induction 1; eauto. Qed.

Lemma stubMatches_malformed objects request stub s fields field node rest e :
  objects !! stub = Some s ->
  Stub.predicates s = Some (fields ++ (field, node) :: rest) ->
  Forall (fun kv => exists b, matchesPredicate (fst kv) (snd kv) request = Return b)
    fields ->
  malformed request field node e ->
  stubMatches objects request stub = Throw e.
Proof.
  intros Hs Hp Hfields Hnode.
  rewrite (stubMatches_lookup _ _ _ _ Hs), Hp. simpl. unfold trueForAll.
  erewrite mapM_app_Throw; [reflexivity| |].
  - eapply Forall_impl; [exact Hfields|]. intros kv [b Hb].
    unfold evaluateField. rewrite Hb. simpl. eauto.
  - unfold evaluateField. cbn [fst snd]. now rewrite (malformed_raises _ _ _ _ Hnode).
Qed.

(** C6 (amended): every stub is evaluated.  Let the stub [bad] of the list
    hold, under one of its fields, a malformed predicate node (a node that
    is not an object, or a key, at any depth, that names no operator and
    whose argument is not of type object), and let the fields and keys of
    [bad] that are evaluated before it evaluate to a result.  The error is
    a ValidationError.  If every stub before [bad] in the list evaluates
    without raising, whether it matches the request or not, then [resolve]
    raises that ValidationError, out of [resolve] itself and before any
    promise exists: a match earlier in the list does not end the evaluation
    of the stubs.  If a stub before [bad] raises, whatever it raises, then
    [resolve] raises the exception of the first stub that raises. *)
Theorem malformed_stub_rejects st request before bad after s fields field node rest e :
  stubs st = before ++ bad :: after ->
  heap st !! bad = Some s ->
  Stub.predicates s = Some (fields ++ (field, node) :: rest) ->
  Forall (fun kv => exists b, matchesPredicate (fst kv) (snd kv) request = Return b)
    fields ->
  malformed request field node e ->
  (exists message source, e = ValidationError message source) /\
  (Forall (fun stub => exists b, stubMatches (heap st) request stub = Return b) before ->
   resolve request st = Throw e) /\
  (forall earlier first later e',
     before = earlier ++ first :: later ->
     Forall (fun stub => exists b, stubMatches (heap st) request stub = Return b)
       earlier ->
     stubMatches (heap st) request first = Throw e' ->
     resolve request st = Throw e').
Proof.
  intros Hstubs Hs Hp Hfields Hnode.
  split; [eapply malformed_ValidationError; exact Hnode|]. split.
  - intros Hbefore. apply resolve_Throw.
    eapply findFirstMatch_Throw; [exact Hstubs|exact Hbefore|].
    eapply stubMatches_malformed; eassumption.
  - intros earlier first later e' -> Hearlier Hfirst. apply resolve_Throw.
    rewrite <- app_assoc in Hstubs. simpl in Hstubs.
    eapply findFirstMatch_Throw; eassumption.
Qed.

(** ** Resolution: properties *)

Lemma step_rules ev st : rules_preserved (heap st) (heap (step ev st)).
Proof.
  destruct ev as [s0|request|id result now].
  - simpl. apply rules_preserved_snoc.
  - now apply step_frame.
  - now apply step_frame.
Qed.

Lemma step_call ev st id c :
  calls st !! id = Some c ->
  (forall result now, ev <> Done id result now) ->
  calls (step ev st) !! id = Some c.
Proof.
  intros Hc Hev. destruct ev as [s0|request|id' result now]; simpl.
  - assumption.
  - destruct (resolve_cases request st) as [(stub & s & Hsel & Hs)|[[st0 H]|[e H]]].
    + rewrite (resolve_selected _ _ _ _ Hsel Hs). simpl. now apply lookup_app_l_Some.
    + rewrite (resolve_implicit _ _ _ H). simpl. now apply lookup_app_l_Some.
    + now rewrite (resolve_Throw _ _ _ H).
  - assert (Hne : id' <> id) by (intros ->; eapply Hev; reflexivity).
    unfold done. destruct (calls st !! id') as [c'|] eqn:Hc'; [|assumption].
    destruct (deferred c'); try assumption.
    destruct result as [response|reason].
    + unfold onResolved, settle, matches_push.
      destruct (heap st !! call_stub c'); simpl; rewrite Hc'; simpl;
        now rewrite list_lookup_insert_ne.
    + unfold onRejected, settle. rewrite Hc'. simpl.
      now rewrite list_lookup_insert_ne.
Qed.

Lemma run_call trace st id c l s :
  calls st !! id = Some c ->
  heap st !! l = Some s ->
  Forall (fun ev => forall result now, ev <> Done id result now) trace ->
  calls (run trace st) !! id = Some c /\ exists s', heap (run trace st) !! l = Some s'.
Proof.
  intros Hc Hs Htrace. revert st s Hc Hs.
  induction Htrace as [|ev trace Hev _ IH]; intros st s Hc Hs; [now eauto|].
  rewrite run_cons. destruct (step_rules ev st l s Hs) as (s1 & Hs1 & _).
  eapply IH; [now apply step_call|exact Hs1].
Qed.

(** A call that [resolve] returns is pending, carries the request, and its
    stub is the stub that was selected, or the implicit stub; it is an
    object of the heap. *)
Lemma resolve_call request st id st1 :
  resolve request st = Return (id, st1) ->
  exists stub d s1,
    (selects st request stub \/
     ((exists st0, findFirstMatch request st = Return (None, st0)) /\
      stub = length (heap st))) /\
    calls st1 !! id = Some (Call stub d request Pending) /\
    heap st1 !! stub = Some s1.
Proof.
  intros H.
  destruct (resolve_cases request st) as [(stub & s & Hsel & Hs)|[[st0 H0]|[e H0]]].
  - rewrite (resolve_selected _ _ _ _ Hsel Hs) in H. inversion H; subst; clear H.
    simpl. do 3 eexists. split; [left; exact Hsel|]. split; [apply lookup_snoc|].
    apply list_lookup_insert_eq. eapply lookup_lt_Some; eassumption.
  - rewrite (resolve_implicit _ _ _ H0) in H. inversion H; subst; clear H.
    simpl. do 3 eexists. split; [right; eauto|]. split; apply lookup_snoc.
  - rewrite (resolve_Throw _ _ _ H0) in H. discriminate.
Qed.

(** C5: recording.  Take a call of [resolve] that returned a promise, and
    any events after it up to the settlement of its resolver.  The stub of
    the call is the stub that [resolve] selected for the request, or the
    implicit stub when none matched.  If the resolver fulfils with
    [response], one record holding the time, the request of the call and
    [response] is appended to the history of that stub, nothing else in the
    heap changes, and the promise is fulfilled with [response] in a state
    that already holds the record.  If the resolver fails with [reason],
    the promise is rejected with [reason] and the heap, hence every
    history, is unchanged. *)
Theorem match_recorded_iff_resolved st request id st1 trace result now :
  resolve request st = Return (id, st1) ->
  Forall (fun ev => forall r t, ev <> Done id r t) trace ->
  let st2 := run trace st1 in
  let st3 := done id result now st2 in
  exists stub d s,
    (selects st request stub \/
     ((exists st0, findFirstMatch request st = Return (None, st0)) /\
      stub = length (heap st))) /\
    calls st2 !! id = Some (Call stub d request Pending) /\
    heap st2 !! stub = Some s /\
    match result with
    | Resolved response =>
        let m := {| Match.timestamp := now;
                    Match.request := request;
                    Match.response := response |} in
        heap st3 = <[stub := recorded m s]> (heap st2) /\
        calls st3 !! id = Some (Call stub d request (Fulfilled response)) /\
        calls (matches_push stub m st2) !! id = Some (Call stub d request Pending) /\
        st3 = settle id (Fulfilled response) (matches_push stub m st2)
    | Failed reason =>
        heap st3 = heap st2 /\
        calls st3 !! id = Some (Call stub d request (Rejected reason))
    end.
Proof.
  intros Hres Htrace st2 st3.
  destruct (resolve_call _ _ _ _ Hres) as (stub & d & s1 & Hsel & Hc1 & Hs1).
  destruct (run_call trace st1 id _ stub s1 Hc1 Hs1 Htrace) as [Hc [s Hs]].
  fold st2 in Hc, Hs. exists stub, d, s.
  split; [exact Hsel|]. split; [exact Hc|]. split; [exact Hs|].
  assert (Hlt : id < length (calls st2)) by (eapply lookup_lt_Some; eassumption).
  subst st3. destruct result as [response|reason].
  - rewrite (done_Resolved _ _ _ _ _ _ Hc eq_refl Hs). simpl.
    split; [reflexivity|]. split; [now apply list_lookup_insert_eq|].
    unfold matches_push, settle. rewrite Hs. simpl. rewrite Hc. simpl.
    split; reflexivity.
  - rewrite (done_Failed _ _ _ _ _ Hc eq_refl). simpl.
    split; [reflexivity|now apply list_lookup_insert_eq].
Qed.

(** C9: rotation comes first.  When [resolve] returns, the resolver has
    been invoked with the descriptor that was at the head of the queue of
    the selected stub, and that descriptor is already at the tail of the
    queue.  If the resolver then fails, the promise is rejected and the heap
    stays as it is: the queue is still advanced and no history changed. *)
Theorem rotation_precedes_resolution st request id st1 :
  resolve request st = Return (id, st1) ->
  exists stub s,
    ((selects st request stub /\ heap st !! stub = Some s) \/
     ((exists st0, findFirstMatch request st = Return (None, st0)) /\
      stub = length (heap st) /\ s = implicitStub)) /\
    calls st1 !! id =
      Some (Call stub (hd VUndefined (Stub.responses s)) request Pending) /\
    heap st1 !! stub = Some (rotated s) /\
    forall reason now,
      let st2 := done id (Failed reason) now st1 in
      heap st2 = heap st1 /\
      calls st2 !! id =
        Some (Call stub (hd VUndefined (Stub.responses s)) request (Rejected reason)).
Proof.
  intros H.
  assert (Hdone : forall c, calls st1 !! id = Some c -> deferred c = Pending ->
    forall reason now,
      heap (done id (Failed reason) now st1) = heap st1 /\
      calls (done id (Failed reason) now st1) !! id =
        Some (Call (call_stub c) (stubResolver c) (call_request c) (Rejected reason))).
  { intros c Hc Hp reason now. rewrite (done_Failed _ _ _ _ _ Hc Hp). simpl.
    split; [reflexivity|]. apply list_lookup_insert_eq.
    eapply lookup_lt_Some; eassumption. }
  destruct (resolve_cases request st) as [(stub & s & Hsel & Hs)|[[st0 H0]|[e H0]]].
  - rewrite (resolve_selected _ _ _ _ Hsel Hs) in H. inversion H; subst; clear H.
    exists stub, s. split; [now left|].
    assert (Hc : forall A (xs : list A) x, (xs ++ [x]) !! length xs = Some x)
      by (intros; apply lookup_snoc).
    simpl in *. split; [apply Hc|].
    split; [apply list_lookup_insert_eq; eapply lookup_lt_Some; eassumption|].
    intros reason now. apply (Hdone _ (Hc _ _ _) eq_refl).
  - rewrite (resolve_implicit _ _ _ H0) in H. inversion H; subst; clear H.
    exists (length (heap st)), implicitStub. split; [right; eauto|].
    simpl in *. split; [apply lookup_snoc|]. split; [apply lookup_snoc|].
    intros reason now. apply (Hdone _ (lookup_snoc _ _) eq_refl).
  - rewrite (resolve_Throw _ _ _ H0) in H. discriminate.
Qed.

(** The calls made along a run, one by one. *)
Lemma calls_issued st st' stub (rs : list value) m n :
  rs <> [] ->
  stubResolver <$> calls st' = (stubResolver <$> calls st) ++ issued rs m n ->
  call_stub <$> calls st' = (call_stub <$> calls st) ++ replicate n stub ->
  length (calls st') = length (calls st) + n /\
  forall k, k < n ->
    exists c, calls st' !! (length (calls st) + k) = Some c /\
              call_stub c = stub /\
              rs !! ((m + k) mod length rs) = Some (stubResolver c).
Proof.
  intros Hne Hd Ht.
  assert (Hlen : length (calls st') = length (calls st) + n).
  { rewrite <- (length_fmap stubResolver (calls st')), Hd, length_app,
      length_fmap, length_issued. reflexivity. }
  split; [exact Hlen|]. intros k Hk.
  destruct (lookup_lt_is_Some_2 (calls st') (length (calls st) + k)) as [c Hc]; [lia|].
  exists c. split; [exact Hc|].
  assert (Hd' : (stubResolver <$> calls st') !! (length (calls st) + k) =
                Some (stubResolver c)) by (now rewrite list_lookup_fmap, Hc).
  assert (Ht' : (call_stub <$> calls st') !! (length (calls st) + k) =
                Some (call_stub c)) by (now rewrite list_lookup_fmap, Hc).
  rewrite Hd, lookup_app_r in Hd' by (rewrite length_fmap; lia).
  rewrite Ht, lookup_app_r in Ht' by (rewrite length_fmap; lia).
  rewrite length_fmap in Hd'. rewrite length_fmap in Ht'.
  replace (length (calls st) + k - length (calls st)) with k in Hd', Ht' by lia.
  rewrite lookup_issued in Hd' by assumption.
  apply lookup_replicate in Ht' as [Ht' _].
  split; [congruence|].
  assert (Hlt : (m + k) mod length rs < length rs).
  { apply Nat.mod_upper_bound. destruct rs; [contradiction|simpl; lia]. }
  destruct (lookup_lt_is_Some_2 _ _ Hlt) as [x Hx].
  rewrite Hx in Hd' |- *. simpl in Hd'. congruence.
Qed.

Lemma against_sequential st stub id requests :
  Forall (fun q => selects st (fst (fst q)) stub) requests ->
  Forall (against st stub) (sequential id requests).
Proof.
  intros H. revert id. induction H as [|[[request result] now] rest Hq _ IH];
    intros id; simpl; [constructor|].
  constructor; [exact Hq|]. constructor; [exact I|]. apply IH.
Qed.

Lemma resolutions_sequential id requests :
  resolutions (sequential id requests) = length requests.
Proof.
  revert id. induction requests as [|[[request result] now] rest IH]; intros id;
    simpl; [reflexivity|]. now rewrite IH.
Qed.

(** C3: round robin.  Let the queue of a stub be [rs], not empty, and let
    the requests be matched by that stub.  One resolution invokes the
    resolver with the head of the queue and moves the head to the tail.
    Resolutions made one after the other receive the descriptors of [rs] in
    order, starting again at the first when the last has been used: the
    resolution of rank [k] receives the descriptor at position
    [k mod length rs].  After [n] resolutions the queue is [rs] rotated by
    [n]; after [length rs] resolutions it is [rs] again.  A queue [A, B, C]
    gives [A, B, C] and then [A] again. *)
Theorem round_robin st stub s requests :
  heap st !! stub = Some s ->
  Stub.responses s <> [] ->
  Forall (fun q => selects st (fst (fst q)) stub) requests ->
  let rs := Stub.responses s in
  let n := length requests in
  let st' := run (sequential (length (calls st)) requests) st in
  (forall request, selects st request stub ->
     exists st1,
       resolve request st = Return (length (calls st), st1) /\
       calls st1 = calls st ++ [Call stub (hd VUndefined rs) request Pending] /\
       heap st1 !! stub = Some (rotated s)) /\
  (forall k, k < n ->
     exists c, calls st' !! (length (calls st) + k) = Some c /\
               call_stub c = stub /\
               rs !! (k mod length rs) = Some (stubResolver c)) /\
  (exists s', heap st' !! stub = Some s' /\
              Stub.responses s' = rotate n rs /\
              (n = length rs -> Stub.responses s' = rs)) /\
  (forall A B C, rs = [A; B; C] -> n = 4 ->
     drop (length (calls st)) (stubResolver <$> calls st') = [A; B; C; A]).
Proof.
  intros Hs Hne Hreqs rs n st'.
  assert (Hq : Stub.responses s = rotate 0 rs) by (now rewrite rotate_0).
  destruct (run_rotation rs stub (sequential (length (calls st)) requests) Hne
              st s 0 Hs Hq (against_sequential _ _ _ _ Hreqs))
    as (_ & Hd & Ht & s' & Hs' & Hq' & _).
  rewrite resolutions_sequential in Hd, Ht, Hq'. fold st' n in Hd, Ht, Hs', Hq'.
  destruct (calls_issued st st' stub rs 0 n Hne Hd Ht) as [_ Hk].
  split; [|split; [|split]].
  - intros request Hsel. eexists.
    split; [apply (resolve_selected _ _ _ _ Hsel Hs)|]. simpl.
    split; [reflexivity|].
    apply list_lookup_insert_eq. eapply lookup_lt_Some; eassumption.
  - exact Hk.
  - exists s'. split; [exact Hs'|]. split; [exact Hq'|].
    intros ->. rewrite Hq'. apply rotate_length.
  - intros A B C HABC Hn. rewrite Hd, drop_app_length', Hn, HABC by
      (now rewrite length_fmap). reflexivity.
Qed.

(** The calls against a stub depend on the calls through their stubs and
    descriptors only. *)
Lemma filter_call_ext stub (cs cs' : list call) :
  call_stub <$> cs' = call_stub <$> cs ->
  stubResolver <$> cs' = stubResolver <$> cs ->
  stubResolver <$> List.filter (fun c => Nat.eqb (call_stub c) stub) cs' =
  stubResolver <$> List.filter (fun c => Nat.eqb (call_stub c) stub) cs.
Proof.
  revert cs'. induction cs as [|c cs IH]; intros [|c' cs'] Ht Hd;
    try discriminate; [reflexivity|].
  simpl in Ht, Hd. inversion Ht as [[Ht1 Ht2]]. inversion Hd as [[Hd1 Hd2]].
  simpl. rewrite Ht1. destruct (Nat.eqb (call_stub c) stub); simpl.
  - rewrite Hd1. f_equal. now apply IH.
  - now apply IH.
Qed.

Lemma issuedTo_snoc stub st st' c :
  calls st' = calls st ++ [c] ->
  issuedTo stub st' =
  issuedTo stub st ++ (if Nat.eqb (call_stub c) stub then [stubResolver c] else []).
Proof.
  intros H. unfold issuedTo. rewrite H, List.filter_app, fmap_app. simpl.
  now destruct (Nat.eqb (call_stub c) stub).
Qed.

(** One event, whatever it is, either leaves the queue of a stub and the
    calls against it as they are, or is a call of [resolve] that selects
    the stub: it then issues the head of the queue to one more call against
    it and moves the head to the tail. *)
Lemma step_queue ev st stub s :
  heap st !! stub = Some s ->
  exists s',
    heap (step ev st) !! stub = Some s' /\
    ((selecting stub ev st = 0 /\
      Stub.responses s' = Stub.responses s /\
      issuedTo stub (step ev st) = issuedTo stub st) \/
     (selecting stub ev st = 1 /\
      Stub.responses s' = Stub.responses (rotated s) /\
      issuedTo stub (step ev st) =
        issuedTo stub st ++ [hd VUndefined (Stub.responses s)])).
Proof.
  intros Hs.
  assert (Hlt : stub < length (heap st)) by (eapply lookup_lt_Some; eassumption).
  destruct ev as [s0|request|id result now].
  - exists s. simpl. split; [now apply lookup_app_l_Some|]. left. auto.
  - cbn [step selecting].
    destruct (resolve_cases request st) as [(l & sl & Hsel & Hl)|[[st0 H]|[e H]]].
    + rewrite (resolve_selected _ _ _ _ Hsel Hl). destruct Hsel as [st0 ->].
      cbn [snd heap].
      destruct (Nat.eqb_spec l stub) as [->|Hne].
      * assert (sl = s) by congruence. subst sl.
        exists (rotated s). split; [now apply list_lookup_insert_eq|]. right.
        split; [reflexivity|]. split; [reflexivity|].
        erewrite issuedTo_snoc by reflexivity. simpl. now rewrite Nat.eqb_refl.
      * exists s. split; [now rewrite list_lookup_insert_ne|]. left.
        split; [reflexivity|]. split; [reflexivity|].
        erewrite issuedTo_snoc by reflexivity. simpl.
        destruct (Nat.eqb_spec l stub); [contradiction|]. now rewrite app_nil_r.
    + rewrite (resolve_implicit _ _ _ H), H. cbn [snd heap].
      exists s. split; [now apply lookup_app_l_Some|]. left.
      split; [reflexivity|]. split; [reflexivity|].
      erewrite issuedTo_snoc by reflexivity. simpl.
      destruct (Nat.eqb_spec (length (heap st)) stub); [lia|]. now rewrite app_nil_r.
    + rewrite (resolve_Throw _ _ _ H), H. exists s. split; [assumption|]. left. auto.
  - cbn [step selecting].
    destruct (done_queue st id result now stub s Hs) as (_ & E2 & E3 & s1 & E4 & E5 & _).
    exists s1. split; [exact E4|]. left. split; [reflexivity|]. split; [exact E5|].
    unfold issuedTo. now apply filter_call_ext.
Qed.

(** Along any run at all, the calls of [resolve] that select [stub] receive
    the positions of its queue in order, one each. *)
Lemma run_queue (rs : list value) stub trace :
  rs <> [] ->
  forall st s m,
    heap st !! stub = Some s ->
    Stub.responses s = rotate m rs ->
    exists s',
      heap (run trace st) !! stub = Some s' /\
      Stub.responses s' = rotate (m + selections stub trace st) rs /\
      issuedTo stub (run trace st) =
        issuedTo stub st ++ issued rs m (selections stub trace st).
Proof.
  intros Hne. induction trace as [|ev trace IH]; intros st s m Hs Hq.
  - exists s. simpl. rewrite Nat.add_0_r, app_nil_r. auto.
  - rewrite run_cons. cbn [selections].
    destruct (step_queue ev st stub s Hs)
      as (s1 & Hs1 & [(Hn & Hq1 & Hi1)|(Hn & Hq1 & Hi1)]); rewrite Hn.
    + assert (Hq' : Stub.responses s1 = rotate m rs) by (now rewrite Hq1).
      destruct (IH _ _ _ Hs1 Hq') as (s' & F1 & F2 & F3).
      exists s'. split; [exact F1|]. split; [exact F2|]. now rewrite F3, Hi1.
    + assert (Hq' : Stub.responses s1 = rotate (S m) rs).
      { rewrite Hq1. simpl. rewrite Hq. now apply rotate_shift_push. }
      destruct (IH _ _ _ Hs1 Hq') as (s' & F1 & F2 & F3).
      exists s'. split; [exact F1|]. split.
      * rewrite F2. f_equal. lia.
      * rewrite F3, Hi1, <- app_assoc. simpl. do 3 f_equal.
        rewrite Hq. now apply rotate_head.
Qed.

(** C10: rotation is one step.  A call of [resolve] runs from selection to
    the invocation of the resolver without yielding; calls, completions and
    additions of stubs interleave only as whole events.  Let the queue of a
    stub be [rs], not empty, and take any run at all (calls of [resolve]
    for any requests, completions of pending calls in any order and with
    any result, stubs added) in which [n] calls of [resolve] select the
    stub.  Then exactly [n] calls were issued a descriptor of the stub, one
    for each such call of [resolve]; the call of rank [k] among them
    received the descriptor at position [k mod length rs] of the configured
    queue; when the descriptors of the queue are distinct, two of these
    calls less than [length rs] apart received different descriptors; and
    the queue ends as the configured queue rotated by [n], no descriptor
    lost or repeated. *)
Theorem rotation_is_indivisible st stub s trace :
  heap st !! stub = Some s ->
  Stub.responses s <> [] ->
  let rs := Stub.responses s in
  let st' := run trace st in
  let n := selections stub trace st in
  let rank := fun k => length (issuedTo stub st) + k in
  length (issuedTo stub st') = length (issuedTo stub st) + n /\
  (forall k, k < n -> issuedTo stub st' !! rank k = rs !! (k mod length rs)) /\
  (NoDup rs ->
   forall j k, j < k -> k < n -> k < j + length rs ->
     issuedTo stub st' !! rank j <> issuedTo stub st' !! rank k) /\
  (exists s', heap st' !! stub = Some s' /\
              Stub.responses s' = rotate n rs /\
              Stub.responses s' ≡ₚ rs).
Proof.
  intros Hs Hne rs st' n rank.
  assert (Hq : Stub.responses s = rotate 0 rs) by (now rewrite rotate_0).
  destruct (run_queue rs stub trace Hne st s 0 Hs Hq) as (s' & Hs' & Hq' & Hi).
  fold st' n in Hs', Hq', Hi.
  assert (Hpos : forall k, k mod length rs < length rs).
  { intros k. apply Nat.mod_upper_bound. destruct rs; [contradiction|simpl; lia]. }
  assert (Hrank : forall k, k < n ->
            issuedTo stub st' !! rank k = rs !! (k mod length rs)).
  { intros k Hk. unfold rank. rewrite Hi, lookup_app_r by lia.
    replace (length (issuedTo stub st) + k - length (issuedTo stub st)) with k by lia.
    rewrite lookup_issued by assumption. simpl.
    destruct (lookup_lt_is_Some_2 _ _ (Hpos k)) as [x Hx]. now rewrite Hx. }
  split; [now rewrite Hi, length_app, length_issued|]. split; [exact Hrank|]. split.
  - intros Hnd j k Hjk Hkn Hk' E.
    rewrite !Hrank in E by lia.
    destruct (lookup_lt_is_Some_2 _ _ (Hpos j)) as [x Hx].
    rewrite Hx in E. symmetry in E.
    pose proof (NoDup_lookup _ _ _ _ Hnd Hx E) as Emod.
    assert (Hlen : length rs <> 0) by (specialize (Hpos 0); lia).
    pose proof (Nat.div_mod_eq j (length rs)) as Hj.
    pose proof (Nat.div_mod_eq k (length rs)) as Hk2.
    rewrite Emod in Hj.
    assert (Hd2 : k - j = length rs * (k / length rs - j / length rs)) by nia.
    destruct (k / length rs - j / length rs) as [|q] eqn:Eq; nia.
  - exists s'. split; [exact Hs'|]. split; [exact Hq'|].
    rewrite Hq'. unfold rotate.
    rewrite Permutation_app_comm, take_drop. reflexivity.
Qed.

(** ** More on predicate evaluation *)

Lemma raised_bind_Return {A B} (m : outcome A) (f : A -> B) :
  raised (let! a := m in Return (f a)) = raised m.
Proof. now destruct m. Qed.

Lemma mapM_raised {A B} (f g : A -> outcome B) xs :
  Forall (fun x => raised (f x) = raised (g x)) xs ->
  raised (mapM f xs) = raised (mapM g xs).
Proof.
  induction 1 as [|x xs Hx _ IH]; simpl; [reflexivity|].
  destruct (f x) as [y|e], (g x) as [y'|e']; simpl in *; try congruence.
  destruct (mapM f xs), (mapM g xs); simpl in *; congruence.
Qed.

Lemma filterM_raised {A} (f g : A -> outcome bool) xs :
  Forall (fun x => raised (f x) = raised (g x)) xs ->
  raised (filterM f xs) = raised (filterM g xs).
Proof.
  induction 1 as [|x xs Hx _ IH]; simpl; [reflexivity|].
  destruct (f x) as [y|e], (g x) as [y'|e']; simpl in *; try congruence.
  destruct (filterM f xs), (filterM g xs); simpl in *; congruence.
Qed.

Lemma validation_ignores_the_request_lemma predicate fieldName request1 request2 :
  operators_raise_alike request1 request2 ->
  raised (matchesPredicate fieldName predicate request1) =
  raised (matchesPredicate fieldName predicate request2).
Proof.
  intros Halike. revert fieldName.
  induction predicate as [| | | | |items _|props IH] using value_nested_ind;
    intros fieldName; try reflexivity.
  rewrite !matchesPredicate_object. unfold trueForAll.
  rewrite !raised_bind_Return. apply mapM_raised.
  eapply Forall_impl; [exact IH|]. intros [key arg] Harg. simpl in *.
  unfold evaluateKey, evaluateKeyWith.
  destruct (predicates key) as [op|] eqn:Hkey.
  - now apply Halike with (key := key).
  - destruct (String.eqb (typeof arg) "object"); [|reflexivity].
    rewrite !raised_bind_Return. apply Harg.
Qed.

(** X1: validation does not depend on the request.  Take two requests for
    which each operator of the table raises alike (the same exception, or
    none, on the same field name and argument).  Then whether the
    evaluation of a predicate raises, and what it raises, is the same for
    both: a dry run with one of them finds the malformed predicates that
    the other would meet. *)
Theorem validation_ignores_the_request predicate fieldName request1 request2 :
  operators_raise_alike request1 request2 ->
  raised (matchesPredicate fieldName predicate request1) =
  raised (matchesPredicate fieldName predicate request2).
Proof. apply validation_ignores_the_request_lemma. Qed.

Lemma stubMatches_raised objects request1 request2 stub :
  operators_raise_alike request1 request2 ->
  raised (stubMatches objects request1 stub) =
  raised (stubMatches objects request2 stub).
Proof.
  intros Halike. unfold stubMatches.
  destruct (objects !! stub) as [s|]; [|reflexivity].
  unfold trueForAll. rewrite !raised_bind_Return. apply mapM_raised.
  apply Forall_forall. intros [fieldName node] _. simpl.
  rewrite !raised_bind_Return. now apply validation_ignores_the_request_lemma.
Qed.

Lemma resolve_raised request st :
  raised (resolve request st) = raised (findFirstMatch request st).
Proof.
  destruct (resolve_cases request st) as [(stub & s & Hsel & Hs)|[[st0 H]|[e H]]].
  - rewrite (resolve_selected _ _ _ _ Hsel Hs). destruct Hsel as [st' ->]. reflexivity.
  - now rewrite (resolve_implicit _ _ _ H), H.
  - now rewrite (resolve_Throw _ _ _ H), H.
Qed.

Lemma findFirstMatch_raised request st :
  raised (findFirstMatch request st) =
  raised (filterM (stubMatches (heap st) request) (stubs st)).
Proof.
  unfold findFirstMatch. destruct (stubs st) as [|l ls]; [reflexivity|].
  simpl length. simpl Nat.eqb. cbv iota.
  destruct (filterM _ (l :: ls)) as [[|first rest]|e]; reflexivity.
Qed.

(** X2: a malformed stub fails every request.  For two requests for which
    each operator of the table raises alike, [resolve] raises for both or
    for neither, and with the same exception: a stub whose predicates are
    malformed makes [resolve] fail whatever is requested. *)
Theorem malformed_stub_fails_every_request st request1 request2 :
  operators_raise_alike request1 request2 ->
  raised (resolve request1 st) = raised (resolve request2 st).
Proof.
  intros Halike. rewrite !resolve_raised, !findFirstMatch_raised.
  apply filterM_raised, Forall_forall. intros stub _.
  now apply stubMatches_raised.
Qed.

Lemma mapM_Return_Forall2 {A B} (f : A -> outcome B) xs ys :
  mapM f xs = Return ys <-> Forall2 (fun x y => f x = Return y) xs ys.
Proof.
  revert ys. induction xs as [|x xs IH]; intros ys; simpl.
  - split; [intros H; inversion H; constructor|intros H; now inversion H].
  - split.
    + destruct (f x) as [y|e] eqn:Hx; [|discriminate]. simpl.
      destruct (mapM f xs) as [zs|e] eqn:Hxs; [|discriminate]. simpl.
      intros H. inversion H; subst. constructor; [assumption|]. now apply IH.
    + intros H. inversion H as [|? y ? zs Hx Hrest]; subst.
      rewrite Hx. simpl. apply IH in Hrest. now rewrite Hrest.
Qed.

Lemma trueForAll_true obj predicate :
  trueForAll obj predicate = Return true <->
  Forall (fun kv => exists result,
            predicate (fst kv) (snd kv) = Return result /\ truthy result = true) obj.
Proof.
  unfold trueForAll. split.
  - destruct (mapM _ obj) as [results|e] eqn:Hm; [|discriminate]. simpl.
    intros H. assert (Hall : forallb truthy results = true) by congruence.
    clear H. apply mapM_Return_Forall2 in Hm.
    induction Hm as [|kv result obj results Hkv _ IH]; [constructor|].
    simpl in Hall. apply andb_prop in Hall as [H1 H2].
    constructor; [exists result; split; [exact Hkv|exact H1]|]. now apply IH.
  - intros H.
    assert (Hm : exists results,
              mapM (fun kv => predicate (fst kv) (snd kv)) obj = Return results /\
              forallb truthy results = true).
    { induction H as [|kv obj (result & Hkv & Ht) _ (results & Hm & Hall)].
      - now exists [].
      - exists (result :: results). simpl. rewrite Hkv, Hm. simpl.
        now rewrite Ht, Hall. }
    destruct Hm as (results & -> & Hall). simpl. now rewrite Hall.
Qed.

(** X3: a predicate node holds exactly when each of its keys evaluates,
    without raising, to a truthy result: the keys of a node are combined by
    conjunction, and an empty node holds. *)
Theorem node_is_conjunction_of_keys fieldName props request :
  matchesPredicate fieldName (VObj props) request = Return true <->
  Forall (fun kv => exists result,
            evaluateKey fieldName (VObj props) request (fst kv) (snd kv)
              = Return result /\ truthy result = true) props.
Proof. rewrite matchesPredicate_object. apply trueForAll_true. Qed.

Lemma mapM_Permutation {A B} (f : A -> outcome B) xs xs' ys :
  xs ≡ₚ xs' ->
  mapM f xs = Return ys ->
  exists ys', mapM f xs' = Return ys' /\ ys ≡ₚ ys'.
Proof.
  intros Hp. revert ys.
  induction Hp as [|x xs xs' _ IH|x1 x2 xs|xs1 xs2 xs3 _ IH1 _ IH2]; intros ys H.
  - exists ys. now split.
  - simpl in *. destruct (f x) as [y|e]; [|discriminate]. simpl in *.
    destruct (mapM f xs) as [zs|e]; [|discriminate]. simpl in H.
    inversion H; subst. destruct (IH zs eq_refl) as (zs' & -> & Hz).
    exists (y :: zs'). split; [reflexivity|now constructor].
  - simpl in *. destruct (f x2) as [y2|e]; [|discriminate]. simpl in *.
    destruct (f x1) as [y1|e]; [|discriminate]. simpl in *.
    destruct (mapM f xs) as [zs|e]; [|discriminate]. simpl in *.
    inversion H; subst. exists (y1 :: y2 :: zs). split; [reflexivity|constructor].
  - destruct (IH1 ys H) as (ys2 & H2 & P2).
    destruct (IH2 ys2 H2) as (ys3 & H3 & P3).
    exists ys3. split; [assumption|]. now rewrite P2.
Qed.

Lemma forallb_Permutation {A} (p : A -> bool) xs ys :
  xs ≡ₚ ys -> forallb p xs = forallb p ys.
Proof.
  induction 1 as [|x xs ys _ IH|x y xs|xs ys zs _ IH1 _ IH2]; simpl.
  - reflexivity.
  - now rewrite IH.
  - destruct (p x), (p y); reflexivity.
  - congruence.
Qed.

Lemma evaluateKey_node fieldName node node' request key arg result :
  evaluateKey fieldName node request key arg = Return result ->
  evaluateKey fieldName node' request key arg = Return result.
Proof.
  unfold evaluateKey, evaluateKeyWith.
  destruct (predicates key); [trivial|].
  destruct (String.eqb (typeof arg) "object"); [trivial|discriminate].
Qed.

(** X4: when the evaluation of a node does not raise, its result does not
    depend on the order of the keys of the node. *)
Theorem key_order_is_irrelevant fieldName props props' request b :
  props ≡ₚ props' ->
  matchesPredicate fieldName (VObj props) request = Return b ->
  matchesPredicate fieldName (VObj props') request = Return b.
Proof.
  intros Hp. rewrite !matchesPredicate_object. unfold trueForAll.
  destruct (mapM _ props) as [results|e] eqn:Hm; [|discriminate]. simpl.
  intros H. inversion H; subst; clear H.
  destruct (mapM_Permutation _ _ _ _ Hp Hm) as (results' & Hm' & Hr).
  assert (Hm'' : mapM (fun kv => evaluateKey fieldName (VObj props') request
                                  (fst kv) (snd kv)) props' = Return results').
  { apply mapM_Return_Forall2. apply mapM_Return_Forall2 in Hm'.
    eapply Forall2_impl; [exact Hm'|]. intros kv result Hkv.
    eapply evaluateKey_node, Hkv. }
  rewrite Hm''. simpl. f_equal. symmetry. now apply forallb_Permutation.
Qed.

Lemma nest_object keys node :
  typeof node = "object" -> typeof (nest keys node) = "object".
Proof. destruct keys; [trivial|reflexivity]. Qed.

(** X5: nested keys compose.  A chain of keys that name no operator, around
    a node, is evaluated as the node under the field name to which the keys
    were appended, each after a dot. *)
Theorem nested_keys_address_a_dotted_path keys fieldName node request :
  Forall (fun key => predicates key = None) keys ->
  typeof node = "object" ->
  matchesPredicate fieldName (nest keys node) request =
  matchesPredicate (dotted fieldName keys) node request.
Proof.
  intros Hkeys Hnode. revert fieldName.
  induction Hkeys as [|key keys Hkey _ IH]; intros fieldName; [reflexivity|].
  change (nest (key :: keys) node) with (VObj [(key, nest keys node)]).
  rewrite matchesPredicate_object. unfold trueForAll. simpl mapM.
  rewrite (evaluateKey_nested _ _ _ _ _ Hkey (nest_object keys node Hnode)).
  rewrite IH. simpl.
  destruct (matchesPredicate _ node request) as [[|]|e]; reflexivity.
Qed.

(** ** More on the repository *)

(** What one event does to a stub object. *)
Lemma step_stub ev st l s :
  heap st !! l = Some s ->
  exists s',
    heap (step ev st) !! l = Some s' /\
    Stub.predicates s' = Stub.predicates s /\
    (Stub.responses s' = Stub.responses s \/
     Stub.responses s' = Stub.responses (rotated s)) /\
    (Stub.matches s' = Stub.matches s \/
     exists m, Stub.matches s' = Some (history s ++ [m])).
Proof.
  intros Hs.
  assert (Hlt : l < length (heap st)) by (eapply lookup_lt_Some; eassumption).
  destruct ev as [s0|request|id result now]; simpl.
  - exists s. split; [now apply lookup_app_l_Some|]. auto.
  - destruct (resolve_cases request st) as [(l' & sl & Hsel & Hl)|[[st0 H]|[e H]]].
    + rewrite (resolve_selected _ _ _ _ Hsel Hl). simpl.
      destruct (decide (l' = l)) as [->|Hne].
      * assert (sl = s) by congruence. subst sl.
        exists (rotated s). split; [now apply list_lookup_insert_eq|]. auto.
      * exists s. split; [now rewrite list_lookup_insert_ne|]. auto.
    + rewrite (resolve_implicit _ _ _ H). simpl.
      exists s. split; [now apply lookup_app_l_Some|]. auto.
    + rewrite (resolve_Throw _ _ _ H). exists s. auto.
  - unfold done. destruct (calls st !! id) as [c|] eqn:Hc; [|exists s; now auto].
    destruct (deferred c); try (exists s; now auto).
    destruct result as [response|reason].
    + unfold onResolved, matches_push, settle.
      destruct (heap st !! call_stub c) as [s0|] eqn:Hs0; simpl; rewrite Hc; simpl;
        [|exists s; now auto].
      destruct (decide (call_stub c = l)) as [E|Hne].
      * rewrite E in *. assert (s0 = s) by congruence. subst s0.
        eexists. split; [now apply list_lookup_insert_eq|]. simpl.
        split; [reflexivity|]. split; [now left|]. right. eexists. reflexivity.
      * exists s. split; [now rewrite list_lookup_insert_ne|]. auto.
    + unfold onRejected, settle. rewrite Hc. simpl. exists s. auto.
Qed.

Lemma rotated_Permutation s :
  Stub.responses s <> [] -> Stub.responses (rotated s) ≡ₚ Stub.responses s.
Proof.
  simpl. destruct (Stub.responses s) as [|r rs]; [contradiction|]. intros _.
  simpl. symmetry. apply Permutation_cons_append.
Qed.

(** X7: what no run does to a stub.  Whatever events happen, a stub object
    stays in place, its predicates are the same, its history is extended at
    the end only (no record is removed or rewritten), and a queue that is
    not empty holds the same descriptors as before. *)
Theorem stub_is_stable trace st l s :
  heap st !! l = Some s ->
  exists s',
    heap (run trace st) !! l = Some s' /\
    Stub.predicates s' = Stub.predicates s /\
    history s `prefix_of` history s' /\
    (Stub.responses s <> [] -> Stub.responses s' ≡ₚ Stub.responses s).
Proof.
  revert st s. induction trace as [|ev trace IH]; intros st s Hs.
  - exists s. repeat split; auto.
  - rewrite run_cons.
    destruct (step_stub ev st l s Hs) as (s1 & Hs1 & Hp1 & Hr1 & Hm1).
    destruct (IH _ _ Hs1) as (s' & Hs' & Hp' & Hh' & Hr').
    exists s'. split; [exact Hs'|]. split; [congruence|]. split.
    + etransitivity; [|exact Hh'].
      destruct Hm1 as [E|[m E]]; unfold history; rewrite E; simpl.
      * reflexivity.
      * now apply prefix_app_r.
    + intros Hne.
      assert (Hq : Stub.responses s1 ≡ₚ Stub.responses s).
      { destruct Hr1 as [E|E]; rewrite E; [reflexivity|now apply rotated_Permutation]. }
      rewrite Hr'; [exact Hq|].
      intros Hnil. rewrite Hnil in Hq. symmetry in Hq.
      apply Permutation_nil_r in Hq. contradiction.
Qed.

Lemma run_rules trace st : rules_preserved (heap st) (heap (run trace st)).
Proof.
  revert st. induction trace as [|ev trace IH]; intros st.
  - apply rules_preserved_refl.
  - rewrite run_cons. eapply rules_preserved_trans; [apply step_rules|apply IH].
Qed.

Lemma step_stubs ev st :
  stubs (step ev st) =
  stubs st ++ match ev with AddStub _ => [length (heap st)] | _ => [] end.
Proof.
  destruct ev as [s0|request|id result now].
  - reflexivity.
  - rewrite app_nil_r. now apply step_frame.
  - rewrite app_nil_r. now apply step_frame.
Qed.

(** X8: the stub list is the order of insertion.  Along any run the list
    keeps its elements and their order and is extended, at the end, by one
    reference for each call of [addStub], in the order of the calls; each
    refers to an object with the predicates of the stub that was added. *)
Theorem stubs_in_insertion_order trace st :
  exists added,
    stubs (run trace st) = stubs st ++ added /\
    Forall2 (fun stub s => exists s', heap (run trace st) !! stub = Some s' /\
                                      Stub.predicates s' = Stub.predicates s)
      added (addedStubs trace).
Proof.
  revert st. induction trace as [|ev trace IH]; intros st.
  - exists []. simpl. rewrite app_nil_r. split; [reflexivity|constructor].
  - rewrite run_cons. destruct (IH (step ev st)) as (added & Hstubs & Hadded).
    rewrite step_stubs in Hstubs.
    destruct ev as [s0|request|id result now]; simpl addedStubs.
    + exists (length (heap st) :: added). rewrite <- app_assoc in Hstubs.
      split; [exact Hstubs|]. constructor; [|exact Hadded].
      apply (run_rules trace (step (AddStub s0) st)). simpl. apply lookup_snoc.
    + exists added. rewrite app_nil_r in Hstubs. now split.
    + exists added. rewrite app_nil_r in Hstubs. now split.
Qed.

Lemma filterM_app {A} (f : A -> outcome bool) xs ys :
  filterM f (xs ++ ys) =
  let! kept := filterM f xs in
  let! more := filterM f ys in
  Return (kept ++ more).
Proof.
  induction xs as [|x xs IH]; simpl.
  - destruct (filterM f ys); reflexivity.
  - destruct (f x) as [b|e]; [|reflexivity]. simpl. rewrite IH.
    destruct (filterM f xs) as [kept|e]; [|reflexivity]. simpl.
    destruct (filterM f ys) as [more|e]; [|reflexivity]. simpl.
    now destruct b.
Qed.

Lemma filterM_nil_inv {A} (f : A -> outcome bool) xs :
  filterM f xs = Return [] -> Forall (fun x => f x = Return false) xs.
Proof.
  induction xs as [|x xs IH]; simpl; [constructor|].
  destruct (f x) as [b|e] eqn:Hx; [|discriminate]. simpl.
  destruct (filterM f xs) as [ys|e]; [|discriminate]. simpl.
  destruct b; intros H; inversion H; subst. constructor; [exact Hx|now apply IH].
Qed.

Lemma stubMatches_snoc objects s request stub b :
  stubMatches objects request stub = Return b ->
  stubMatches (objects ++ [s]) request stub = Return b.
Proof. apply stubMatches_preserved, rules_preserved_snoc. Qed.

Lemma filterM_stubs_snoc st s request :
  Forall (fun stub => exists b, stubMatches (heap st) request stub = Return b)
    (stubs st) ->
  filterM (stubMatches (heap st ++ [s]) request) (stubs st) =
  filterM (stubMatches (heap st) request) (stubs st).
Proof.
  intros H. apply filterM_ext. eapply Forall_impl; [exact H|].
  intros stub [b Hb]. simpl. rewrite Hb. now apply stubMatches_snoc.
Qed.

Lemma selects_filter st request stub :
  selects st request stub <->
  exists rest,
    filterM (stubMatches (heap st) request) (stubs st) = Return (stub :: rest).
Proof.
  split.
  - intros [st' H]. now apply findFirstMatch_Some in H as [H _].
  - intros [rest H]. eexists. eapply findFirstMatch_filter, H.
Qed.

(** X9: stubs added later never take precedence.  Let the stubs of the
    repository evaluate without raising for a request, and let a stub be
    added whose predicates evaluate to [b].  Afterwards the request selects
    the stub it selected before; it selects the new stub only if no stub
    matched before and [b] is true. *)
Theorem addStub_keeps_precedence st s request b stub :
  Forall (fun l => exists b', stubMatches (heap st) request l = Return b')
    (stubs st) ->
  stubMatches (heap st ++ [s]) request (length (heap st)) = Return b ->
  (selects (step (AddStub s) st) request stub <->
   selects st request stub \/
   (Forall (fun l => stubMatches (heap st) request l = Return false) (stubs st) /\
    b = true /\ stub = length (heap st))).
Proof.
  intros Hall Hnew. rewrite !selects_filter. simpl.
  destruct (filterM_total _ _ Hall) as [kept Hkept].
  assert (Hf : filterM (stubMatches (heap st ++ [s]) request)
                 (stubs st ++ [length (heap st)]) =
               Return (kept ++ if b then [length (heap st)] else [])).
  { rewrite filterM_app, (filterM_stubs_snoc _ _ _ Hall), Hkept. simpl.
    rewrite Hnew. simpl. now destruct b. }
  rewrite Hf, Hkept. split.
  - intros [rest H]. inversion H as [H']. clear H.
    destruct kept as [|first kept'].
    + right. split; [now apply filterM_nil_inv|].
      destruct b; simpl in H'; [|discriminate]. inversion H'. auto.
    + left. simpl in H'. inversion H'; subst. eauto.
  - intros [[rest H]|(Hnone & -> & ->)].
    + inversion H; subst. simpl. eauto.
    + rewrite (filterM_none _ _ Hnone) in Hkept. inversion Hkept; subst.
      simpl. eauto.
Qed.

(** X10: [addStub] validates nothing.  A stub whose predicates raise is
    added like any other; after that [resolve] raises the exception of that
    stub for every request for which the earlier stubs evaluate without
    raising, whether one of them matches or not. *)
Theorem addStub_accepts_malformed_stub st s request e :
  Forall (fun l => exists b, stubMatches (heap st) request l = Return b)
    (stubs st) ->
  stubMatches (heap st ++ [s]) request (length (heap st)) = Throw e ->
  stubs (step (AddStub s) st) = stubs st ++ [length (heap st)] /\
  heap (step (AddStub s) st) !! length (heap st) = Some s /\
  resolve request (step (AddStub s) st) = Throw e.
Proof.
  intros Hall Hnew. split; [reflexivity|]. split; [apply lookup_snoc|].
  apply resolve_Throw.
  eapply findFirstMatch_Throw with (before := stubs st) (after := []).
  - reflexivity.
  - simpl. eapply Forall_impl; [exact Hall|]. intros l [b Hb]. exists b.
    now apply stubMatches_snoc.
  - exact Hnew.
Qed.

(** X11: an unmatched request leaves no trace in the stubs.  When no stub
    matches, resolving the request and settling its resolver changes
    neither the stub list nor any stub object that existed.  The heap gains
    one object, the implicit stub, which the stub list does not hold: when
    the resolver succeeds, the match record, with the time, the request and
    the response, is the one record of its history; when the resolver
    fails, it has no history. *)
Theorem unmatched_request_leaves_no_trace st request result now :
  wellFormed st ->
  Forall (fun stub => stubMatches (heap st) request stub = Return false) (stubs st) ->
  let st' := run [Resolve request; Done (length (calls st)) result now] st in
  stubs st' = stubs st /\
  heap st' = heap st ++
             [match result with
              | Resolved response =>
                  recorded {| Match.timestamp := now;
                              Match.request := request;
                              Match.response := response |} implicitStub
              | Failed _ => implicitStub
              end] /\
  ~ In (length (heap st)) (stubs st').
Proof.
  intros [Hwf _] Hnone st'.
  assert (Hfind : exists st0, findFirstMatch request st = Return (None, st0)).
  { destruct (findFirstMatch_none _ _ Hnone) as [H|H]; eauto. }
  destruct Hfind as [st0 Hfind].
  pose proof (resolve_implicit _ _ _ Hfind) as Hres.
  set (c := Call (length (heap st)) (VObj [("is", VObj [])]) request Pending) in *.
  set (st1 := {| heap := heap st ++ [implicitStub]; stubs := stubs st;
                 calls := calls st ++ [c]; debug := debug st0 |}) in *.
  assert (Hst' : st' = done (length (calls st)) result now st1).
  { unfold st', run. simpl. now rewrite Hres. }
  assert (Hc : calls st1 !! length (calls st) = Some c) by apply lookup_snoc.
  assert (Hs : heap st1 !! call_stub c = Some implicitStub) by apply lookup_snoc.
  assert (Hframe : stubs st' = stubs st /\
                   heap st' = heap st ++
                     [match result with
                      | Resolved response =>
                          recorded {| Match.timestamp := now;
                                      Match.request := request;
                                      Match.response := response |} implicitStub
                      | Failed _ => implicitStub
                      end]).
  { rewrite Hst'. destruct result as [response|reason].
    - rewrite (done_Resolved _ _ _ _ _ _ Hc eq_refl Hs). simpl.
      rewrite insert_snoc. split; reflexivity.
    - rewrite (done_Failed _ _ _ _ _ Hc eq_refl). simpl. split; reflexivity. }
  destruct Hframe as (E1 & E2). repeat (split; [assumption|]).
  rewrite E1. intros Hin.
  eapply Forall_forall in Hwf; [|apply list_elem_of_In; exact Hin]. lia.
Qed.

Lemma issued_singleton x m n : issued [x] m n = replicate n x.
Proof.
  revert m. induction n as [|n IH]; intros m; [reflexivity|].
  cbn [issued]. rewrite IH. change (length [x]) with 1.
  now rewrite Nat.mod_1_r.
Qed.

Lemma rotate_singleton {A} (x : A) n : rotate n [x] = [x].
Proof. unfold rotate. change (length [x]) with 1. now rewrite Nat.mod_1_r. Qed.

(** X12: a stub without responses.  [shift] on an empty queue returns
    [undefined] and [push] stores it.  Over any run, each call of [resolve]
    that selects such a stub hands [undefined] to the resolver, and no
    other call is made against the stub; from the first such call on, the
    queue is [[undefined]]. *)
Theorem empty_queue_issues_undefined trace st stub s :
  heap st !! stub = Some s ->
  Stub.responses s = [] ->
  let n := selections stub trace st in
  exists s',
    issuedTo stub (run trace st) = issuedTo stub st ++ replicate n VUndefined /\
    heap (run trace st) !! stub = Some s' /\
    Stub.responses s' = if Nat.eqb n 0 then [] else [VUndefined].
Proof.
  revert st s. induction trace as [|ev trace IH]; intros st s Hs Hq; cbv zeta.
  - exists s. simpl. rewrite app_nil_r. auto.
  - rewrite run_cons. cbn [selections].
    destruct (step_queue ev st stub s Hs)
      as (s1 & Hs1 & [(Hn & Hq1 & Hi1)|(Hn & Hq1 & Hi1)]); rewrite Hn.
    + destruct (IH _ _ Hs1 (eq_trans Hq1 Hq)) as (s' & F1 & F2 & F3).
      exists s'. split; [now rewrite F1, Hi1|]. auto.
    + assert (Hq' : Stub.responses s1 = rotate 0 [VUndefined]).
      { rewrite Hq1. simpl. now rewrite Hq. }
      destruct (run_queue [VUndefined] stub trace ltac:(discriminate) _ _ 0 Hs1 Hq')
        as (s' & F1 & F2 & F3).
      exists s'. split; [|split; [exact F1|]].
      * rewrite F3, Hi1, Hq, issued_singleton, <- app_assoc. reflexivity.
      * rewrite F2. simpl. apply rotate_singleton.
Qed.

Lemma filter_length_insert {A} (p : A -> bool) (cs : list A) id c c' :
  cs !! id = Some c ->
  length (List.filter p (<[id := c']> cs)) + (if p c then 1 else 0) =
  length (List.filter p cs) + (if p c' then 1 else 0).
Proof.
  revert id. induction cs as [|x cs IH]; intros id H; [discriminate|].
  destruct id as [|id]; simpl in *.
  - inversion H; subst. destruct (p c), (p c'); simpl; lia.
  - specialize (IH id H). destruct (p x); simpl; lia.
Qed.

(** What one event does to the history of a stub and to the count of the
    fulfilled calls against it. *)
Lemma step_history ev st l s :
  heap st !! l = Some s ->
  exists s',
    heap (step ev st) !! l = Some s' /\
    length (history s') + fulfilledAgainst l st =
    length (history s) + fulfilledAgainst l (step ev st).
Proof.
  intros Hs.
  assert (Hlt : l < length (heap st)) by (eapply lookup_lt_Some; eassumption).
  assert (Hsnoc : forall objects refs c lines, deferred c = Pending ->
            fulfilledAgainst l {| heap := objects; stubs := refs;
                                  calls := calls st ++ [c]; debug := lines |} =
            fulfilledAgainst l st).
  { intros objects refs c lines Hp. unfold fulfilledAgainst. simpl.
    rewrite List.filter_app. simpl.
    rewrite Hp, andb_false_r, app_nil_r. reflexivity. }
  destruct ev as [s0|request|id result now]; simpl.
  - exists s. split; [now apply lookup_app_l_Some|reflexivity].
  - destruct (resolve_cases request st) as [(l' & sl & Hsel & Hl)|[[st0 H]|[e H]]].
    + rewrite (resolve_selected _ _ _ _ Hsel Hl). cbn [snd].
      rewrite Hsnoc by reflexivity. simpl.
      destruct (decide (l' = l)) as [->|Hne].
      * assert (sl = s) by congruence. subst sl.
        exists (rotated s). split; [now apply list_lookup_insert_eq|reflexivity].
      * exists s. split; [now rewrite list_lookup_insert_ne|reflexivity].
    + rewrite (resolve_implicit _ _ _ H). cbn [snd].
      rewrite Hsnoc by reflexivity. simpl.
      exists s. split; [now apply lookup_app_l_Some|reflexivity].
    + rewrite (resolve_Throw _ _ _ H). exists s. auto.
  - unfold done. destruct (calls st !! id) as [c|] eqn:Hc; [|exists s; now auto].
    destruct (deferred c) eqn:Hp; try (exists s; now auto).
    assert (Hcount : forall p heap',
      fulfilledAgainst l
        {| heap := heap'; stubs := stubs st;
           calls := <[id := Call (call_stub c) (stubResolver c) (call_request c) p]>
                      (calls st);
           debug := debug st |} =
      fulfilledAgainst l st +
      (if Nat.eqb (call_stub c) l && isFulfilled p then 1 else 0)).
    { intros p heap'. unfold fulfilledAgainst. simpl.
      pose proof (filter_length_insert
        (fun c0 => Nat.eqb (call_stub c0) l && isFulfilled (deferred c0))
        (calls st) id c (Call (call_stub c) (stubResolver c) (call_request c) p) Hc)
        as E.
      simpl in E. rewrite Hp in E. simpl in E. rewrite andb_false_r in E. lia. }
    destruct result as [response|reason].
    + unfold onResolved, matches_push, settle.
      destruct (heap st !! call_stub c) as [s0|] eqn:Hs0; simpl; rewrite Hc;
        rewrite Hcount; simpl.
      * destruct (Nat.eqb_spec (call_stub c) l) as [E|Hne].
        -- rewrite E in *. assert (s0 = s) by congruence. subst s0.
           eexists. split; [now apply list_lookup_insert_eq|].
           unfold history. simpl. rewrite length_app. simpl. lia.
        -- exists s. split; [now rewrite list_lookup_insert_ne|]. simpl. lia.
      * destruct (Nat.eqb_spec (call_stub c) l) as [E|Hne].
        -- rewrite E in Hs0. congruence.
        -- exists s. split; [assumption|]. simpl. lia.
    + unfold onRejected, settle. rewrite Hc, Hcount. simpl.
      rewrite andb_false_r. exists s. split; [assumption|lia].
Qed.

(** X13: the history counts the fulfilled calls.  Over any run, the history
    of a stub grows by exactly the number of calls against that stub whose
    promise was fulfilled during the run: one record for each fulfilled
    call, none for a call that is pending or was rejected. *)
Theorem history_counts_fulfilled_calls trace st stub s :
  heap st !! stub = Some s ->
  exists s',
    heap (run trace st) !! stub = Some s' /\
    length (history s') + fulfilledAgainst stub st =
    length (history s) + fulfilledAgainst stub (run trace st).
Proof.
  revert st s. induction trace as [|ev trace IH]; intros st s Hs.
  - exists s. auto.
  - rewrite run_cons. destruct (step_history ev st stub s Hs) as (s1 & Hs1 & E1).
    destruct (IH _ _ Hs1) as (s' & Hs' & E'). exists s'. split; [exact Hs'|lia].
Qed.
End StubRepository.

(** ** The properties at concrete inputs *)

Import Examples.

(** C1, as worded, fails: two stubs match every request and a third stub,
    later in the list, is malformed; [resolve] raises and selects nothing. *)
Lemma first_match_counterexample :
  ~ first_match_as_stated table malformedLast (xTest "a").
Proof.
  intros H.
  destruct (H 0 1 [] [] [2] eq_refl (List.Forall_nil _) eq_refl eq_refl)
    as (id & st' & c & Hres & _).
  vm_compute in Hres. discriminate Hres.
Qed.

Lemma first_match_precedence_witness :
  (stubs headerThenTwo = [0] ++ 1 :: [2] /\
   Forall (fun stub => stubMatches table (heap headerThenTwo) (xTest "b") stub
                       = Return false) [0] /\
   stubMatches table (heap headerThenTwo) (xTest "b") 1 = Return true /\
   Forall (fun stub => exists b, stubMatches table (heap headerThenTwo) (xTest "b") stub
                                 = Return b) [2] /\
   Forall resolving [Resolve (xTest "a"); Done 0 (Resolved (VStr "ok")) "t0"] /\
   let st1 := run table [Resolve (xTest "a"); Done 0 (Resolved (VStr "ok")) "t0"]
                headerThenTwo in
   exists s st2,
     heap st1 !! 1 = Some s /\
     resolve table (xTest "b") st1 = Return (length (calls st1), st2) /\
     calls st2 =
       calls st1 ++ [Call 1 (hd VUndefined (Stub.responses s)) (xTest "b") Pending] /\
     heap st2 = <[1 := rotated s]> (heap st1)) /\
  (stubs malformedLast = [0; 1] ++ 2 :: [] /\
   Forall (fun stub => exists b, stubMatches table (heap malformedLast) (xTest "a") stub
                                 = Return b) [0; 1] /\
   stubMatches table (heap malformedLast) (xTest "a") 2 = Throw Inputs.noBogus /\
   resolve table (xTest "a") malformedLast = Throw Inputs.noBogus /\
   (forall l, ~ selects table malformedLast (xTest "a") l)).
Proof.
  assert (H1 : stubs headerThenTwo = [0] ++ 1 :: [2]) by reflexivity.
  assert (H2 : Forall (fun stub => stubMatches table (heap headerThenTwo) (xTest "b") stub
                                   = Return false) [0])
    by (repeat constructor).
  assert (H3 : stubMatches table (heap headerThenTwo) (xTest "b") 1 = Return true)
    by reflexivity.
  assert (H4 : Forall (fun stub => exists b,
                 stubMatches table (heap headerThenTwo) (xTest "b") stub = Return b) [2])
    by (repeat constructor; exists true; reflexivity).
  assert (H5 : Forall resolving [Resolve (xTest "a"); Done 0 (Resolved (VStr "ok")) "t0"])
    by (repeat constructor).
  assert (G1 : stubs malformedLast = [0; 1] ++ 2 :: []) by reflexivity.
  assert (G2 : Forall (fun stub => exists b,
                 stubMatches table (heap malformedLast) (xTest "a") stub = Return b)
                 [0; 1])
    by (repeat constructor; exists true; reflexivity).
  assert (G3 : stubMatches table (heap malformedLast) (xTest "a") 2
               = Throw Inputs.noBogus) by reflexivity.
  split.
  - repeat (split; [assumption|]).
    exact (proj1 (first_match_precedence table headerThenTwo (xTest "b") [0] 1 [2] H1)
             H2 H3 H4 _ H5).
  - repeat (split; [assumption|]).
    exact (proj2 (first_match_precedence table malformedLast (xTest "a") [0; 1] 2 [] G1)
             _ G2 G3).
Defined.

(** C2, as worded, fails.  The recognized key of each node evaluates to
    false; before the invalid key comes a nested node.  In the first node a
    scripted predicate inside the nested node throws, and its error is the
    one that surfaces; in the second the nested node is [null], and a
    TypeError surfaces. *)
Lemma exhaustive_validation_counterexample :
  ~ exhaustive_validation_as_stated table "path"
      [("nested", VObj [("inject", VStr "function (request) { throw 'boom'; }")]);
       ("equals", VStr "/test"); ("bogus", VNum 1)] (xTest "a") /\
  ~ exhaustive_validation_as_stated table "path"
      [("nested", VNull); ("equals", VStr "/test"); ("bogus", VNum 1)] (xTest "a").
Proof.
  split; intros H.
  - destruct H as (message & source & H).
    + exists "equals", (VStr "/test"), equals.
      split; [right; now left|reflexivity].
    + exists "bogus", (VNum 1).
      split; [right; right; now left|]. split; [reflexivity|discriminate].
    + intros key arg op [E|[E|[E|[]]]] Hop; inversion E; subst;
        try discriminate Hop.
      inversion Hop; subst. eexists. reflexivity.
    + vm_compute in H. discriminate H.
  - destruct H as (message & source & H).
    + exists "equals", (VStr "/test"), equals.
      split; [right; now left|reflexivity].
    + exists "bogus", (VNum 1).
      split; [right; right; now left|]. split; [reflexivity|discriminate].
    + intros key arg op [E|[E|[E|[]]]] Hop; inversion E; subst;
        try discriminate Hop.
      inversion Hop; subst. eexists. reflexivity.
    + vm_compute in H. discriminate H.
Qed.

Lemma exhaustive_validation_witness :
  (table "bogus" = None /\
   typeof (VNum 1) <> "object" /\
   let node := VObj ([("equals", VStr "/test")] ++ ("bogus", VNum 1) ::
                     [("equals2", VStr "/other")]) in
   Forall (fun kv => exists result,
             evaluateKey table "path" node (xTest "a") (fst kv) (snd kv)
               = Return result)
     [("equals", VStr "/test")] /\
   matchesPredicate table "path" node (xTest "a") =
   Throw (ValidationError ("no predicate '" +:+ "bogus" +:+ "'") node)) /\
  (let node := VObj (([("equals", VStr "/test")] ++
                      ("nested", VObj [("inject", VStr "function (request) { throw 'boom'; }")])
                      :: []) ++ ("bogus", VNum 1) :: []) in
   Forall (fun kv => exists result,
             evaluateKey table "path" node (xTest "a") (fst kv) (snd kv)
               = Return result)
     [("equals", VStr "/test")] /\
   evaluateKey table "path" node (xTest "a") "nested"
     (VObj [("inject", VStr "function (request) { throw 'boom'; }")])
     = Throw Inputs.boom /\
   matchesPredicate table "path" node (xTest "a") = Throw Inputs.boom).
Proof.
  assert (H1 : table "bogus" = None) by reflexivity.
  assert (H2 : typeof (VNum 1) <> "object") by discriminate.
  split.
  - assert (H3 : Forall (fun kv => exists result,
              evaluateKey table "path"
                (VObj ([("equals", VStr "/test")] ++ ("bogus", VNum 1) ::
                       [("equals2", VStr "/other")]))
                (xTest "a") (fst kv) (snd kv) = Return result)
              [("equals", VStr "/test")])
      by (repeat constructor; exists (VBool false); reflexivity).
    repeat (split; [assumption|]).
    exact (proj1 (exhaustive_validation table "path" (xTest "a")
                    [("equals", VStr "/test")] "bogus" (VNum 1)
                    [("equals2", VStr "/other")] H1 H2) H3).
  - assert (H3 : Forall (fun kv => exists result,
              evaluateKey table "path"
                (VObj (([("equals", VStr "/test")] ++
                        ("nested",
                         VObj [("inject", VStr "function (request) { throw 'boom'; }")])
                        :: []) ++ ("bogus", VNum 1) :: []))
                (xTest "a") (fst kv) (snd kv) = Return result)
              [("equals", VStr "/test")])
      by (repeat constructor; exists (VBool false); reflexivity).
    assert (H4 : evaluateKey table "path"
                   (VObj (([("equals", VStr "/test")] ++
                           ("nested",
                            VObj [("inject", VStr "function (request) { throw 'boom'; }")])
                           :: []) ++ ("bogus", VNum 1) :: []))
                   (xTest "a") "nested"
                   (VObj [("inject", VStr "function (request) { throw 'boom'; }")])
                 = Throw Inputs.boom) by reflexivity.
    repeat (split; [assumption|]).
    exact (proj2 (exhaustive_validation table "path" (xTest "a")
                    ([("equals", VStr "/test")] ++
                     ("nested",
                      VObj [("inject", VStr "function (request) { throw 'boom'; }")])
                     :: [])
                    "bogus" (VNum 1) [] H1 H2)
             [("equals", VStr "/test")]
             ("nested", VObj [("inject", VStr "function (request) { throw 'boom'; }")])
             [] _ eq_refl H3 H4).
Defined.

Lemma nested_field_addressing_witness :
  table "X-Test" = None /\
  typeof (VObj [("equals", VStr "a")]) = "object" /\
  (matchesPredicate table "headers"
     (VObj ([] ++ ("X-Test", VObj [("equals", VStr "a")]) :: []))
     Inputs.dottedRequest =
   (let! nested := matchesPredicate table "headers.X-Test"
                     (VObj [("equals", VStr "a")]) Inputs.dottedRequest in
    Return (true && nested && true))) /\
  matchesPredicate table "headers.X-Test" (VObj [("equals", VStr "a")])
    Inputs.dottedRequest = Return true /\
  stubMatches table (heap headerOnly) (xTest "a") 0 = Return true /\
  stubMatches table (heap headerOnly) (xTest "b") 0 = Return false.
Proof.
  assert (H1 : table "X-Test" = None) by reflexivity.
  assert (H2 : typeof (VObj [("equals", VStr "a")]) = "object") by reflexivity.
  assert (H3 : matchesPredicate table "headers.X-Test" (VObj [("equals", VStr "a")])
                 Inputs.dottedRequest = Return true) by reflexivity.
  split; [exact H1|]. split; [exact H2|].
  split; [|split; [exact H3|split]].
  - exact (proj1 (nested_field_addressing table "headers" []
                    "X-Test" (VObj [("equals", VStr "a")]) []
                    Inputs.dottedRequest H1 H2)).
  - exact (proj2 (nested_field_addressing table "headers" []
                    "X-Test" (VObj [("equals", VStr "a")]) []
                    Inputs.dottedRequest H1 H2)
             equals (heap headerOnly) 0 _ (xTest "a") (VBool true)
             eq_refl eq_refl eq_refl eq_refl).
  - exact (proj2 (nested_field_addressing table "headers" []
                    "X-Test" (VObj [("equals", VStr "a")]) []
                    Inputs.dottedRequest H1 H2)
             equals (heap headerOnly) 0 _ (xTest "b") (VBool false)
             eq_refl eq_refl eq_refl eq_refl).
Defined.

Lemma no_match_fallback_witness :
  Forall (fun stub => stubMatches table (heap headerOnly) (xTest "b") stub
                      = Return false) (stubs headerOnly) /\
  exists st',
    resolve table (xTest "b") headerOnly = Return (length (calls headerOnly), st') /\
    heap st' = heap headerOnly ++ [implicitStub] /\
    stubs st' = stubs headerOnly /\
    calls st' = calls headerOnly ++
                [Call (length (heap headerOnly)) (VObj [("is", VObj [])])
                   (xTest "b") Pending] /\
    forall result now,
      calls (done (length (calls headerOnly)) result now st')
        !! length (calls headerOnly) =
      Some (Call (length (heap headerOnly)) (VObj [("is", VObj [])]) (xTest "b")
              match result with
              | Resolved response => Fulfilled response
              | Failed reason => Rejected reason
              end).
Proof.
  assert (H1 : Forall (fun stub => stubMatches table (heap headerOnly) (xTest "b") stub
                                   = Return false) (stubs headerOnly))
    by (repeat constructor).
  split; [assumption|].
  exact (no_match_fallback table headerOnly (xTest "b") H1).
Defined.

(** C6, as worded, fails: the last stub is malformed, and the error that
    surfaces is that of the stub before it: the error of its script, or the
    TypeError of its [null] node. *)
Lemma malformed_stub_counterexample :
  ~ malformed_stub_as_stated table scriptBeforeMalformed (xTest "a") /\
  ~ malformed_stub_as_stated table nullBeforeMalformed (xTest "a").
Proof.
  split; intros H.
  - destruct (H 2 (onlyIf bogusOperator [VStr "C"]) "path" (VObj [("bogus", VNum 1)]))
      as (message & source & Hres).
    + simpl. auto.
    + reflexivity.
    + now left.
    + right. exists [("bogus", VNum 1)], "bogus", (VNum 1).
      split; [reflexivity|]. split; [now left|]. split; [reflexivity|discriminate].
    + vm_compute in Hres. discriminate Hres.
  - destruct (H 2 (onlyIf bogusOperator [VStr "C"]) "path" (VObj [("bogus", VNum 1)]))
      as (message & source & Hres).
    + simpl. auto.
    + reflexivity.
    + now left.
    + right. exists [("bogus", VNum 1)], "bogus", (VNum 1).
      split; [reflexivity|]. split; [now left|]. split; [reflexivity|discriminate].
    + vm_compute in Hres. discriminate Hres.
Qed.

Lemma malformed_stub_rejects_witness :
  (stubs malformedLast = [0; 1] ++ 2 :: [] /\
   heap malformedLast !! 2 = Some (onlyIf bogusOperator [VStr "C"]) /\
   Stub.predicates (onlyIf bogusOperator [VStr "C"]) =
     Some ([] ++ ("path", Inputs.bogusNode) :: []) /\
   Forall (fun kv => exists b,
             matchesPredicate table (fst kv) (snd kv) (xTest "a") = Return b) [] /\
   malformed table (xTest "a") "path" Inputs.bogusNode Inputs.noBogus /\
   Forall (fun stub => exists b, stubMatches table (heap malformedLast) (xTest "a") stub
                                 = Return b) [0; 1] /\
   resolve table (xTest "a") malformedLast = Throw Inputs.noBogus) /\
  (stubs scriptBeforeMalformed = ([0] ++ 1 :: []) ++ 2 :: [] /\
   heap scriptBeforeMalformed !! 2 = Some (onlyIf bogusOperator [VStr "C"]) /\
   Forall (fun stub => exists b,
             stubMatches table (heap scriptBeforeMalformed) (xTest "a") stub
             = Return b) [0] /\
   stubMatches table (heap scriptBeforeMalformed) (xTest "a") 1 = Throw Inputs.boom /\
   resolve table (xTest "a") scriptBeforeMalformed = Throw Inputs.boom) /\
  (stubs nullBeforeMalformed = ([0] ++ 1 :: []) ++ 2 :: [] /\
   heap nullBeforeMalformed !! 2 = Some (onlyIf bogusOperator [VStr "C"]) /\
   Forall (fun stub => exists b,
             stubMatches table (heap nullBeforeMalformed) (xTest "a") stub
             = Return b) [0] /\
   stubMatches table (heap nullBeforeMalformed) (xTest "a") 1 =
     Throw (TypeError "Cannot convert undefined or null to object") /\
   resolve table (xTest "a") nullBeforeMalformed =
     Throw (TypeError "Cannot convert undefined or null to object")).
Proof.
  assert (Hp : Stub.predicates (onlyIf bogusOperator [VStr "C"]) =
               Some ([] ++ ("path", Inputs.bogusNode) :: [])) by reflexivity.
  assert (Hf : Forall (fun kv => exists b,
                 matchesPredicate table (fst kv) (snd kv) (xTest "a") = Return b) [])
    by constructor.
  assert (Hm : malformed table (xTest "a") "path" Inputs.bogusNode Inputs.noBogus).
  { apply (malformed_key table (xTest "a") "path" [] "bogus" (VNum 1) []).
    - constructor.
    - reflexivity.
    - discriminate. }
  split; [|split].
  - assert (H1 : stubs malformedLast = [0; 1] ++ 2 :: []) by reflexivity.
    assert (H2 : heap malformedLast !! 2 = Some (onlyIf bogusOperator [VStr "C"]))
      by reflexivity.
    assert (H3 : Forall (fun stub => exists b,
                   stubMatches table (heap malformedLast) (xTest "a") stub = Return b)
                   [0; 1])
      by (repeat constructor; exists true; reflexivity).
    repeat (split; [assumption|]).
    exact (proj1 (proj2 (malformed_stub_rejects table malformedLast (xTest "a")
                           [0; 1] 2 [] _ [] "path" Inputs.bogusNode [] _
                           H1 H2 Hp Hf Hm)) H3).
  - assert (H1 : stubs scriptBeforeMalformed = ([0] ++ 1 :: []) ++ 2 :: [])
      by reflexivity.
    assert (H2 : heap scriptBeforeMalformed !! 2 = Some (onlyIf bogusOperator [VStr "C"]))
      by reflexivity.
    assert (H3 : Forall (fun stub => exists b,
                   stubMatches table (heap scriptBeforeMalformed) (xTest "a") stub
                   = Return b) [0])
      by (repeat constructor; exists true; reflexivity).
    assert (H4 : stubMatches table (heap scriptBeforeMalformed) (xTest "a") 1
                 = Throw Inputs.boom) by reflexivity.
    repeat (split; [assumption|]).
    exact (proj2 (proj2 (malformed_stub_rejects table scriptBeforeMalformed (xTest "a")
                           ([0] ++ 1 :: []) 2 [] _ [] "path" Inputs.bogusNode [] _
                           H1 H2 Hp Hf Hm)) [0] 1 [] _ eq_refl H3 H4).
  - assert (H1 : stubs nullBeforeMalformed = ([0] ++ 1 :: []) ++ 2 :: [])
      by reflexivity.
    assert (H2 : heap nullBeforeMalformed !! 2 = Some (onlyIf bogusOperator [VStr "C"]))
      by reflexivity.
    assert (H3 : Forall (fun stub => exists b,
                   stubMatches table (heap nullBeforeMalformed) (xTest "a") stub
                   = Return b) [0])
      by (repeat constructor; exists true; reflexivity).
    assert (H4 : stubMatches table (heap nullBeforeMalformed) (xTest "a") 1
                 = Throw (TypeError "Cannot convert undefined or null to object"))
      by reflexivity.
    repeat (split; [assumption|]).
    exact (proj2 (proj2 (malformed_stub_rejects table nullBeforeMalformed (xTest "a")
                           ([0] ++ 1 :: []) 2 [] _ [] "path" Inputs.bogusNode [] _
                           H1 H2 Hp Hf Hm)) [0] 1 [] _ eq_refl H3 H4).
Defined.

Lemma match_recorded_iff_resolved_witness :
  resolve table (xTest "b") headerThenTwo = Return (0, headerThenTwoResolved) /\
  Forall (fun ev => forall r t, ev <> Done 0 r t)
    [AddStub (always [VStr "F"]); Resolve (xTest "a")] /\
  let st2 := run table [AddStub (always [VStr "F"]); Resolve (xTest "a")]
               headerThenTwoResolved in
  let st3 := done 0 (Resolved (VStr "ok")) "t1" st2 in
  exists stub d s,
    (selects table headerThenTwo (xTest "b") stub \/
     ((exists st0, findFirstMatch table (xTest "b") headerThenTwo = Return (None, st0)) /\
      stub = length (heap headerThenTwo))) /\
    calls st2 !! 0 = Some (Call stub d (xTest "b") Pending) /\
    heap st2 !! stub = Some s /\
    let m := {| Match.timestamp := "t1";
                Match.request := xTest "b";
                Match.response := VStr "ok" |} in
    heap st3 = <[stub := recorded m s]> (heap st2) /\
    calls st3 !! 0 = Some (Call stub d (xTest "b") (Fulfilled (VStr "ok"))) /\
    calls (matches_push stub m st2) !! 0 = Some (Call stub d (xTest "b") Pending) /\
    st3 = settle 0 (Fulfilled (VStr "ok")) (matches_push stub m st2).
Proof.
  assert (H1 : resolve table (xTest "b") headerThenTwo
               = Return (0, headerThenTwoResolved)) by reflexivity.
  assert (H2 : Forall (fun ev => forall r t, ev <> Done 0 r t)
                 [AddStub (always [VStr "F"]); Resolve (xTest "a")])
    by (repeat constructor; intros; discriminate).
  repeat (split; [assumption|]).
  exact (match_recorded_iff_resolved table headerThenTwo (xTest "b") 0
           headerThenTwoResolved _ (Resolved (VStr "ok")) "t1" H1 H2).
Defined.

Lemma rotation_precedes_resolution_witness :
  resolve table (xTest "b") headerThenTwo = Return (0, headerThenTwoResolved) /\
  exists stub s,
    ((selects table headerThenTwo (xTest "b") stub /\
      heap headerThenTwo !! stub = Some s) \/
     ((exists st0, findFirstMatch table (xTest "b") headerThenTwo = Return (None, st0)) /\
      stub = length (heap headerThenTwo) /\ s = implicitStub)) /\
    calls headerThenTwoResolved !! 0 =
      Some (Call stub (hd VUndefined (Stub.responses s)) (xTest "b") Pending) /\
    heap headerThenTwoResolved !! stub = Some (rotated s) /\
    forall reason now,
      let st2 := done 0 (Failed reason) now headerThenTwoResolved in
      heap st2 = heap headerThenTwoResolved /\
      calls st2 !! 0 =
        Some (Call stub (hd VUndefined (Stub.responses s)) (xTest "b")
                (Rejected reason)).
Proof.
  assert (H1 : resolve table (xTest "b") headerThenTwo
               = Return (0, headerThenTwoResolved)) by reflexivity.
  split; [assumption|].
  exact (rotation_precedes_resolution table headerThenTwo (xTest "b") 0
           headerThenTwoResolved H1).
Defined.

Lemma round_robin_witness :
  heap headerThenTwo !! 1 = Some (always [VStr "B"; VStr "C"; VStr "D"]) /\
  Stub.responses (always [VStr "B"; VStr "C"; VStr "D"]) <> [] /\
  Forall (fun q => selects table headerThenTwo (fst (fst q)) 1) fourRequests /\
  let rs := Stub.responses (always [VStr "B"; VStr "C"; VStr "D"]) in
  let n := length fourRequests in
  let st' := run table (sequential (length (calls headerThenTwo)) fourRequests)
               headerThenTwo in
  (forall request, selects table headerThenTwo request 1 ->
     exists st1,
       resolve table request headerThenTwo
         = Return (length (calls headerThenTwo), st1) /\
       calls st1 = calls headerThenTwo ++
                   [Call 1 (hd VUndefined rs) request Pending] /\
       heap st1 !! 1 = Some (rotated (always [VStr "B"; VStr "C"; VStr "D"]))) /\
  (forall k, k < n ->
     exists c, calls st' !! (length (calls headerThenTwo) + k) = Some c /\
               call_stub c = 1 /\
               rs !! (k mod length rs) = Some (stubResolver c)) /\
  (exists s', heap st' !! 1 = Some s' /\
              Stub.responses s' = rotate n rs /\
              (n = length rs -> Stub.responses s' = rs)) /\
  (forall A B C, rs = [A; B; C] -> n = 4 ->
     drop (length (calls headerThenTwo)) (stubResolver <$> calls st') = [A; B; C; A]).
Proof.
  assert (H1 : heap headerThenTwo !! 1 = Some (always [VStr "B"; VStr "C"; VStr "D"]))
    by reflexivity.
  assert (H2 : Stub.responses (always [VStr "B"; VStr "C"; VStr "D"]) <> [])
    by discriminate.
  assert (H3 : Forall (fun q => selects table headerThenTwo (fst (fst q)) 1)
                 fourRequests)
    by (repeat constructor; eexists; reflexivity).
  repeat (split; [assumption|]).
  exact (round_robin table headerThenTwo 1 _ fourRequests H1 H2 H3).
Defined.

Lemma rotation_is_indivisible_witness :
  heap headerThenTwo !! 1 = Some (always [VStr "B"; VStr "C"; VStr "D"]) /\
  Stub.responses (always [VStr "B"; VStr "C"; VStr "D"]) <> [] /\
  selections table 1 interleaved headerThenTwo = 4 /\
  let rs := Stub.responses (always [VStr "B"; VStr "C"; VStr "D"]) in
  let st' := run table interleaved headerThenTwo in
  let n := selections table 1 interleaved headerThenTwo in
  let rank := fun k => length (issuedTo 1 headerThenTwo) + k in
  length (issuedTo 1 st') = length (issuedTo 1 headerThenTwo) + n /\
  (forall k, k < n -> issuedTo 1 st' !! rank k = rs !! (k mod length rs)) /\
  (NoDup rs ->
   forall j k, j < k -> k < n -> k < j + length rs ->
     issuedTo 1 st' !! rank j <> issuedTo 1 st' !! rank k) /\
  (exists s', heap st' !! 1 = Some s' /\
              Stub.responses s' = rotate n rs /\
              Stub.responses s' ≡ₚ rs).
Proof.
  assert (H1 : heap headerThenTwo !! 1 = Some (always [VStr "B"; VStr "C"; VStr "D"]))
    by reflexivity.
  assert (H2 : Stub.responses (always [VStr "B"; VStr "C"; VStr "D"]) <> [])
    by discriminate.
  assert (H3 : selections table 1 interleaved headerThenTwo = 4) by reflexivity.
  split; [exact H1|]. split; [exact H2|]. split; [exact H3|].
  exact (rotation_is_indivisible table headerThenTwo 1 _ interleaved H1 H2).
Defined.

(** What the runs of the examples come to. *)
Example sequential_run_issues_B_C_D_B :
  stubResolver <$> calls (run table (sequential 0 fourRequests) headerThenTwo) =
  [VStr "B"; VStr "C"; VStr "D"; VStr "B"].
Proof. reflexivity. Qed.

Example interleaved_run_issues_B_C_D_B :
  issuedTo 1 (run table interleaved headerThenTwo) =
  [VStr "B"; VStr "C"; VStr "D"; VStr "B"].
Proof. reflexivity. Qed.

Example failed_call_leaves_no_record :
  Stub.matches <$> heap (run table (sequential 0 fourRequests) headerThenTwo) !! 1 =
  Some (Some [Match.make "t0" (xTest "b") (VStr "first");
              Match.make "t2" (xTest "b") (VStr "third");
              Match.make "t3" (xTest "d") (VStr "fourth")]).
Proof. reflexivity. Qed.

Example null_node_raises_TypeError :
  resolve table (xTest "a") (repositoryOf [onlyIf nullNode [VStr "A"]]) =
  Throw (TypeError "Cannot convert undefined or null to object").
Proof. reflexivity. Qed.

(** ** The command line: properties *)

Import Mb.

Lemma loadConfig_parsesTo lib o w json :
  parsesTo lib o w json ->
  loadConfig lib o w =
  let! imposters := json_imposters json in
  let imposters := if negb (truthy imposters) then VArr [json] else imposters in
  Return (Some (putConfig o (JSON_stringify lib (VObj [("imposters", imposters)])))).
Proof.
  intros (file & contents & rendered & Hfile & Hread & Hrender & Hparse).
  unfold loadConfig, fs_readFileSync. rewrite Hfile, Hread. simpl.
  rewrite Hrender. simpl. rewrite Hparse. reflexivity.
Qed.

(** X14: what [loadConfig] sends.  When the configuration file parses to a
    document other than [null], the body sent is an object with the one
    property [imposters], whose value is truthy: the property [imposters]
    of the document when that is truthy, and otherwise the array holding
    the whole document.  Loading what was sent sends it again unchanged. *)
Theorem loadConfig_normalizes lib o w json :
  parsesTo lib o w json ->
  json <> VNull ->
  json <> VUndefined ->
  exists property,
    json_imposters json = Return property /\
    let imposters := if truthy property then property else VArr [json] in
    truthy imposters = true /\
    sends lib o w (VObj [("imposters", imposters)]) /\
    forall o' w',
      parsesTo lib o' w' (VObj [("imposters", imposters)]) ->
      sends lib o' w' (VObj [("imposters", imposters)]).
Proof.
  intros Hparse Hnull Hundef.
  assert (Hp : exists property, json_imposters json = Return property).
  { destruct json; simpl; eauto; contradiction. }
  destruct Hp as [property Hp]. exists property. split; [exact Hp|].
  assert (Ht : truthy (if truthy property then property else VArr [json]) = true).
  { destruct (truthy property) eqn:E; [exact E|reflexivity]. }
  cbv zeta. split; [exact Ht|]. split.
  - unfold sends. rewrite (loadConfig_parsesTo _ _ _ _ Hparse), Hp. simpl.
    now destruct (truthy property).
  - intros o' w' Hparse'. unfold sends.
    rewrite (loadConfig_parsesTo _ _ _ _ Hparse'). simpl.
    now rewrite Ht.
Qed.

(** X15: a configuration file is never skipped.  When the file parses,
    [loadConfig] either issues a request or raises; it raises exactly when
    the document is [null], whose property cannot be read. *)
Theorem loadConfig_raises_on_null lib o w json :
  parsesTo lib o w json ->
  loadConfig lib o w <> Return None /\
  ((exists e, loadConfig lib o w = Throw e) <-> json = VNull \/ json = VUndefined).
Proof.
  intros Hparse. rewrite (loadConfig_parsesTo _ _ _ _ Hparse).
  destruct json; simpl; (split; [discriminate|]); split;
    try (intros [e He]; discriminate He);
    try (intros [H|H]; discriminate H); eauto.
Qed.

Lemma stop_cases lib o t w :
  (files w (pidfile o) = None /\ directories w (pidfile o) = false /\
   stop lib o t w = Return (NothingToStop, w)) \/
  (files w (pidfile o) = None /\ directories w (pidfile o) = true /\
   stop lib o t w = Throw (Failure (VStr "EISDIR"))) \/
  (exists contents,
     files w (pidfile o) = Some contents /\
     processExists lib contents w = false /\
     stop lib o t w =
       Return (NothingToStop,
               {| files := fun p => if String.eqb p (pidfile o) then None
                                    else files w p;
                  directories := fun p => if String.eqb p (pidfile o) then false
                                          else directories w p;
                  running := running w;
                  delivered := delivered w |})) \/
  (exists contents pid,
     files w (pidfile o) = Some contents /\
     pid_of lib contents = Some pid /\
     running w pid = true /\
     stop lib o t w =
       Return (Closed,
               {| files := files w; directories := directories w;
                  running := running w;
                  delivered := delivered w ++ [(pid, SIGTERM)] |})).
Proof.
  unfold stop, fs_existsSync, fs_readFileSync.
  destruct (files w (pidfile o)) as [contents|] eqn:Hfile.
  2: { destruct (directories w (pidfile o)); [right; left|left]; auto. }
  right. right. simpl. unfold processExists, process_kill.
  destruct (pid_of lib contents) as [pid|] eqn:Hpid.
  - destruct (running w pid) eqn:Hrun; simpl.
    + right. exists contents, pid. repeat (split; [assumption|]).
      unfold waitForClose, fs_existsSync. simpl. now rewrite Hfile.
    + left. exists contents. split; [reflexivity|].
      split; [unfold processExists, process_kill; now rewrite Hpid, Hrun|].
      unfold fs_unlinkSync. now rewrite Hfile.
  - left. exists contents. split; [reflexivity|].
    split; [unfold processExists, process_kill; now rewrite Hpid|].
    simpl. unfold fs_unlinkSync. now rewrite Hfile.
Qed.


(** X17: what [stop] touches.  [stop] changes no file but the pidfile and
    ends no process itself.  It removes the pidfile exactly when the pid in
    it cannot be signalled, and then sends nothing; otherwise it sends one
    SIGTERM, to the pid in the pidfile, and keeps the pidfile. *)
Theorem stop_effects lib o elapsedTime w how w' :
  stop lib o elapsedTime w = Return (how, w') ->
  running w' = running w /\
  (forall p, p <> pidfile o -> files w' p = files w p) /\
  ((files w' (pidfile o) = None /\ delivered w' = delivered w /\
    (files w (pidfile o) = None \/
     exists contents, files w (pidfile o) = Some contents /\
                      processExists lib contents w = false)) \/
   (exists contents pid,
      files w (pidfile o) = Some contents /\
      files w' (pidfile o) = Some contents /\
      pid_of lib contents = Some pid /\
      running w pid = true /\
      delivered w' = delivered w ++ [(pid, SIGTERM)])).
Proof.
  intros Hstop.
  destruct (stop_cases lib o elapsedTime w)
    as [(Hfile & _ & H)|[(_ & _ & H)
       |[(c & Hfile & Hdead & H)|(c & pid & Hfile & Hpid & Hrun & H)]]];
    rewrite H in Hstop; [|discriminate Hstop| |];
    inversion Hstop; subst; clear Hstop; simpl.
  - split; [reflexivity|]. split; [reflexivity|]. left. auto.
  - split; [reflexivity|]. split.
    + intros p Hp. destruct (String.eqb_spec p (pidfile o)); [contradiction|reflexivity].
    + left. rewrite String.eqb_refl. eauto 6.
  - split; [reflexivity|]. split; [reflexivity|]. right. eauto 10.
Qed.

(** X18: a stale pidfile is removed once.  When the pidfile holds a pid
    that cannot be signalled, or no pid at all, [stop] removes the pidfile
    and sends nothing; a second [stop] then finds nothing to do and changes
    nothing. *)
Theorem stop_removes_stale_pidfile lib o elapsedTime w contents :
  files w (pidfile o) = Some contents ->
  processExists lib contents w = false ->
  exists w',
    stop lib o elapsedTime w = Return (NothingToStop, w') /\
    files w' (pidfile o) = None /\
    delivered w' = delivered w /\
    forall elapsedTime', stop lib o elapsedTime' w' = Return (NothingToStop, w').
Proof.
  intros Hfile Hdead.
  destruct (stop_cases lib o elapsedTime w)
    as [(Hnone & _)|[(Hnone & _)
       |[(c & Hc & _ & H)|(c & pid & Hc & Hpid & Hrun & _)]]].
  - congruence.
  - congruence.
  - eexists. split; [exact H|]. simpl. rewrite String.eqb_refl.
    split; [reflexivity|]. split; [reflexivity|].
    intros t'. unfold stop, fs_existsSync. simpl. now rewrite String.eqb_refl.
  - assert (c = contents) by congruence. subst c.
    unfold processExists, process_kill in Hdead. rewrite Hpid, Hrun in Hdead.
    discriminate.
Qed.

(** ** The further properties at concrete inputs *)

Import Inputs.

Lemma plainObject_raises_alike request1 request2 :
  operators_raise_alike plainObject request1 request2.
Proof.
  intros key op fieldName arg H. unfold plainObject, table in H.
  destruct (String.eqb key "__proto__"); [inversion H; reflexivity|].
  destruct (String.eqb key "equals"); [inversion H; reflexivity|].
  destruct (String.eqb key "inject"); [inversion H; reflexivity|discriminate H].
Defined.

Lemma validation_ignores_the_request_witness :
  operators_raise_alike plainObject (xTest "a") (xTest "b") /\
  raised (matchesPredicate plainObject "path"
            (VObj [("equals", VStr "/test"); ("__proto__", VNum 1)]) (xTest "a")) =
  raised (matchesPredicate plainObject "path"
            (VObj [("equals", VStr "/test"); ("__proto__", VNum 1)]) (xTest "b")).
Proof.
  split; [exact (plainObject_raises_alike (xTest "a") (xTest "b"))|].
  exact (validation_ignores_the_request plainObject
           (VObj [("equals", VStr "/test"); ("__proto__", VNum 1)]) "path"
           (xTest "a") (xTest "b") (plainObject_raises_alike (xTest "a") (xTest "b"))).
Defined.

Lemma malformed_stub_fails_every_request_witness :
  operators_raise_alike plainObject (xTest "a") (xTest "b") /\
  raised (resolve plainObject (xTest "a") malformedLast) =
  raised (resolve plainObject (xTest "b") malformedLast).
Proof.
  split; [exact (plainObject_raises_alike (xTest "a") (xTest "b"))|].
  exact (malformed_stub_fails_every_request plainObject malformedLast
           (xTest "a") (xTest "b") (plainObject_raises_alike (xTest "a") (xTest "b"))).
Defined.

Lemma key_order_is_irrelevant_witness :
  [("equals", VStr "a"); ("nested", VObj [])] ≡ₚ
  [("nested", VObj []); ("equals", VStr "a")] /\
  matchesPredicate equalsOnly "headers"
    (VObj [("equals", VStr "a"); ("nested", VObj [])]) (xTest "a") = Return false /\
  matchesPredicate equalsOnly "headers"
    (VObj [("nested", VObj []); ("equals", VStr "a")]) (xTest "a") = Return false.
Proof.
  assert (H1 : [("equals", VStr "a"); ("nested", VObj [])] ≡ₚ
               [("nested", VObj []); ("equals", VStr "a")]) by apply perm_swap.
  assert (H2 : matchesPredicate equalsOnly "headers"
                 (VObj [("equals", VStr "a"); ("nested", VObj [])]) (xTest "a")
               = Return false) by reflexivity.
  repeat (split; [assumption|]).
  exact (key_order_is_irrelevant equalsOnly "headers" _ _ (xTest "a") false H1 H2).
Defined.

Lemma nested_keys_address_a_dotted_path_witness :
  Forall (fun key => equalsOnly key = None) headerPath /\
  typeof (VObj [("equals", VStr "a")]) = "object" /\
  matchesPredicate equalsOnly "request"
    (nest headerPath (VObj [("equals", VStr "a")])) (xTest "a") =
  matchesPredicate equalsOnly (dotted "request" headerPath)
    (VObj [("equals", VStr "a")]) (xTest "a").
Proof.
  assert (H1 : Forall (fun key => equalsOnly key = None) headerPath)
    by (repeat constructor).
  assert (H2 : typeof (VObj [("equals", VStr "a")]) = "object") by reflexivity.
  repeat (split; [assumption|]).
  exact (nested_keys_address_a_dotted_path equalsOnly headerPath "request"
           (VObj [("equals", VStr "a")]) (xTest "a") H1 H2).
Defined.

Lemma stub_is_stable_witness :
  heap headerThenTwo !! 1 = Some (always [VStr "B"; VStr "C"; VStr "D"]) /\
  exists s',
    heap (run table interleaved headerThenTwo) !! 1 = Some s' /\
    Stub.predicates s' = Stub.predicates (always [VStr "B"; VStr "C"; VStr "D"]) /\
    history (always [VStr "B"; VStr "C"; VStr "D"]) `prefix_of` history s' /\
    (Stub.responses (always [VStr "B"; VStr "C"; VStr "D"]) <> [] ->
     Stub.responses s' ≡ₚ Stub.responses (always [VStr "B"; VStr "C"; VStr "D"])).
Proof.
  assert (H1 : heap headerThenTwo !! 1 = Some (always [VStr "B"; VStr "C"; VStr "D"]))
    by reflexivity.
  split; [assumption|].
  exact (stub_is_stable table interleaved headerThenTwo 1 _ H1).
Defined.

Lemma addStub_keeps_precedence_witness :
  Forall (fun l => exists b', stubMatches table (heap headerThenTwo) (xTest "b") l
                              = Return b') (stubs headerThenTwo) /\
  stubMatches table (heap headerThenTwo ++ [always [VStr "F"]]) (xTest "b")
    (length (heap headerThenTwo)) = Return true /\
  (selects table (step table (AddStub (always [VStr "F"])) headerThenTwo) (xTest "b") 1 <->
   selects table headerThenTwo (xTest "b") 1 \/
   (Forall (fun l => stubMatches table (heap headerThenTwo) (xTest "b") l = Return false)
      (stubs headerThenTwo) /\
    true = true /\ 1 = length (heap headerThenTwo))).
Proof.
  assert (H1 : Forall (fun l => exists b',
                 stubMatches table (heap headerThenTwo) (xTest "b") l = Return b')
                 (stubs headerThenTwo))
    by (repeat constructor; eexists; reflexivity).
  assert (H2 : stubMatches table (heap headerThenTwo ++ [always [VStr "F"]]) (xTest "b")
                 (length (heap headerThenTwo)) = Return true) by reflexivity.
  repeat (split; [assumption|]).
  exact (addStub_keeps_precedence table headerThenTwo (always [VStr "F"])
           (xTest "b") true 1 H1 H2).
Defined.

Lemma addStub_accepts_malformed_stub_witness :
  Forall (fun l => exists b, stubMatches table (heap headerThenTwo) (xTest "b") l
                             = Return b) (stubs headerThenTwo) /\
  stubMatches table (heap headerThenTwo ++ [onlyIf bogusOperator [VStr "C"]])
    (xTest "b") (length (heap headerThenTwo)) =
    Throw (ValidationError "no predicate 'bogus'" (VObj [("bogus", VNum 1)])) /\
  stubs (step table (AddStub (onlyIf bogusOperator [VStr "C"])) headerThenTwo) =
    stubs headerThenTwo ++ [length (heap headerThenTwo)] /\
  heap (step table (AddStub (onlyIf bogusOperator [VStr "C"])) headerThenTwo)
    !! length (heap headerThenTwo) = Some (onlyIf bogusOperator [VStr "C"]) /\
  resolve table (xTest "b")
    (step table (AddStub (onlyIf bogusOperator [VStr "C"])) headerThenTwo) =
    Throw (ValidationError "no predicate 'bogus'" (VObj [("bogus", VNum 1)])).
Proof.
  assert (H1 : Forall (fun l => exists b,
                 stubMatches table (heap headerThenTwo) (xTest "b") l = Return b)
                 (stubs headerThenTwo))
    by (repeat constructor; eexists; reflexivity).
  assert (H2 : stubMatches table (heap headerThenTwo ++ [onlyIf bogusOperator [VStr "C"]])
                 (xTest "b") (length (heap headerThenTwo)) =
               Throw (ValidationError "no predicate 'bogus'" (VObj [("bogus", VNum 1)])))
    by reflexivity.
  repeat (split; [assumption|]).
  exact (addStub_accepts_malformed_stub table headerThenTwo
           (onlyIf bogusOperator [VStr "C"]) (xTest "b") _ H1 H2).
Defined.

Lemma unmatched_request_leaves_no_trace_witness :
  wellFormed headerOnly /\
  Forall (fun stub => stubMatches table (heap headerOnly) (xTest "b") stub
                      = Return false) (stubs headerOnly) /\
  let st' := run table [Resolve (xTest "b");
                        Done (length (calls headerOnly)) (Resolved (VStr "ok")) "t0"]
               headerOnly in
  stubs st' = stubs headerOnly /\
  heap st' = heap headerOnly ++
             [recorded {| Match.timestamp := "t0";
                          Match.request := xTest "b";
                          Match.response := VStr "ok" |} implicitStub] /\
  ~ In (length (heap headerOnly)) (stubs st').
Proof.
  assert (H1 : wellFormed headerOnly)
    by (split; repeat constructor).
  assert (H2 : Forall (fun stub => stubMatches table (heap headerOnly) (xTest "b") stub
                                   = Return false) (stubs headerOnly))
    by (repeat constructor).
  split; [exact H1|]. split; [exact H2|].
  exact (unmatched_request_leaves_no_trace table headerOnly (xTest "b")
           (Resolved (VStr "ok")) "t0" H1 H2).
Defined.

Lemma empty_queue_issues_undefined_witness :
  heap noResponses !! 0 = Some (always []) /\
  Stub.responses (always []) = [] /\
  selections table 0 [Resolve (xTest "a"); Resolve (xTest "b")] noResponses = 2 /\
  let n := selections table 0 [Resolve (xTest "a"); Resolve (xTest "b")] noResponses in
  exists s',
    issuedTo 0 (run table [Resolve (xTest "a"); Resolve (xTest "b")] noResponses) =
      issuedTo 0 noResponses ++ replicate n VUndefined /\
    heap (run table [Resolve (xTest "a"); Resolve (xTest "b")] noResponses) !! 0
      = Some s' /\
    Stub.responses s' = if Nat.eqb n 0 then [] else [VUndefined].
Proof.
  assert (H1 : heap noResponses !! 0 = Some (always [])) by reflexivity.
  assert (H2 : Stub.responses (always []) = []) by reflexivity.
  assert (H3 : selections table 0 [Resolve (xTest "a"); Resolve (xTest "b")]
                 noResponses = 2) by reflexivity.
  split; [exact H1|]. split; [exact H2|]. split; [exact H3|].
  exact (empty_queue_issues_undefined table
           [Resolve (xTest "a"); Resolve (xTest "b")] noResponses 0 _ H1 H2).
Defined.

Lemma history_counts_fulfilled_calls_witness :
  heap headerThenTwo !! 1 = Some (always [VStr "B"; VStr "C"; VStr "D"]) /\
  exists s',
    heap (run table interleaved headerThenTwo) !! 1 = Some s' /\
    length (history s') + fulfilledAgainst 1 headerThenTwo =
    length (history (always [VStr "B"; VStr "C"; VStr "D"])) +
    fulfilledAgainst 1 (run table interleaved headerThenTwo).
Proof.
  assert (H1 : heap headerThenTwo !! 1 = Some (always [VStr "B"; VStr "C"; VStr "D"]))
    by reflexivity.
  split; [assumption|].
  exact (history_counts_fulfilled_calls table interleaved headerThenTwo 1 _ H1).
Defined.

Lemma exampleOptions_parsesTo :
  parsesTo exampleLibrary exampleOptions exampleWorld (VObj [("port", VNum 4545)]).
Proof. exists "imposter.json", portDocument, portDocument. repeat split. Defined.

Lemma loadConfig_normalizes_witness :
  parsesTo exampleLibrary exampleOptions exampleWorld (VObj [("port", VNum 4545)]) /\
  VObj [("port", VNum 4545)] <> VNull /\
  VObj [("port", VNum 4545)] <> VUndefined /\
  exists property,
    json_imposters (VObj [("port", VNum 4545)]) = Return property /\
    let imposters :=
      if truthy property then property else VArr [VObj [("port", VNum 4545)]] in
    truthy imposters = true /\
    sends exampleLibrary exampleOptions exampleWorld (VObj [("imposters", imposters)]) /\
    forall o' w',
      parsesTo exampleLibrary o' w' (VObj [("imposters", imposters)]) ->
      sends exampleLibrary o' w' (VObj [("imposters", imposters)]).
Proof.
  assert (H2 : VObj [("port", VNum 4545)] <> VNull) by discriminate.
  assert (H3 : VObj [("port", VNum 4545)] <> VUndefined) by discriminate.
  split; [exact exampleOptions_parsesTo|]. repeat (split; [assumption|]).
  exact (loadConfig_normalizes exampleLibrary exampleOptions exampleWorld _
           exampleOptions_parsesTo H2 H3).
Defined.

Lemma loadConfig_raises_on_null_witness :
  parsesTo exampleLibrary exampleOptions exampleWorld (VObj [("port", VNum 4545)]) /\
  loadConfig exampleLibrary exampleOptions exampleWorld <> Return None /\
  ((exists e, loadConfig exampleLibrary exampleOptions exampleWorld = Throw e) <->
   VObj [("port", VNum 4545)] = VNull \/ VObj [("port", VNum 4545)] = VUndefined).
Proof.
  split; [exact exampleOptions_parsesTo|].
  exact (loadConfig_raises_on_null exampleLibrary exampleOptions exampleWorld _
           exampleOptions_parsesTo).
Defined.

Lemma stop_effects_witness :
  stop exampleLibrary exampleOptions 0 exampleWorld =
    Return (Closed, {| files := files exampleWorld;
                       directories := directories exampleWorld;
                       running := running exampleWorld;
                       delivered := [(4242, SIGTERM)] |}) /\
  exists contents pid,
    files exampleWorld (pidfile exampleOptions) = Some contents /\
    pid_of exampleLibrary contents = Some pid /\
    running exampleWorld pid = true /\
    delivered {| files := files exampleWorld;
                 directories := directories exampleWorld;
                 running := running exampleWorld;
                 delivered := [(4242, SIGTERM)] |} =
      delivered exampleWorld ++ [(pid, SIGTERM)].
Proof.
  assert (H1 : stop exampleLibrary exampleOptions 0 exampleWorld =
               Return (Closed, {| files := files exampleWorld;
                                  directories := directories exampleWorld;
                                  running := running exampleWorld;
                                  delivered := [(4242, SIGTERM)] |}))
    by reflexivity.
  split; [assumption|].
  destruct (stop_effects exampleLibrary exampleOptions 0 exampleWorld _ _ H1)
    as (_ & _ & [(Hgone & _)|(contents & pid & Hc & _ & Hpid & Hrun & Hsent)]).
  - discriminate Hgone.
  - exists contents, pid. auto.
Defined.

Lemma stop_removes_stale_pidfile_witness :
  files exampleWorld (pidfile staleOptions) = Some "17" /\
  processExists exampleLibrary "17" exampleWorld = false /\
  exists w',
    stop exampleLibrary staleOptions 0 exampleWorld = Return (NothingToStop, w') /\
    files w' (pidfile staleOptions) = None /\
    delivered w' = delivered exampleWorld /\
    forall elapsedTime',
      stop exampleLibrary staleOptions elapsedTime' w' = Return (NothingToStop, w').
Proof.
  assert (H1 : files exampleWorld (pidfile staleOptions) = Some "17") by reflexivity.
  assert (H2 : processExists exampleLibrary "17" exampleWorld = false) by reflexivity.
  repeat (split; [assumption|]).
  exact (stop_removes_stale_pidfile exampleLibrary staleOptions 0 exampleWorld "17"
           H1 H2).
Defined.

(** What [stop] does when the path of the pidfile is a directory. *)
Example stop_raises_on_a_directory :
  stop exampleLibrary directoryOptions 0 exampleWorld =
  Throw (Failure (VStr "EISDIR")).
Proof. reflexivity. Qed.
